(** * SScanSS-2 kinematics core: quaternions, links, serial manipulators,
      trajectories, animation sequences and numeric inverse kinematics.

    Python floats are modelled by the real numbers [R]: every arithmetic
    operation is exact, [math.sqrt], [math.acos], [math.cos] and [math.sin]
    are the functions of the standard library of reals.  Exceptions the code
    can raise are values of [exn], carried by [result]. *)

From Stdlib Require Import Reals RNsatz List ZArith Bool Lra Lia.
Import ListNotations.
Open Scope R_scope.

(** ** Exceptions *)

Inductive exn : Type :=
| ZeroDivisionError
| ValueError
| IndexError
| LinAlgError
| StopOptimizingException.

Inductive result (A : Type) : Type :=
| Ok (a : A)
| Raise (e : exn).

Arguments Ok {A} a.
Arguments Raise {A} e.

(** ** sscanss/core/math/misc.py *)

(** [is_close(a, b, tol)]: [np.all(np.abs(np.subtract(a, b)) < tol)] on two
    arrays of the same shape. *)
Fixpoint is_close (a b : list R) (tol : R) : bool :=
  match a, b with
  | [], [] => true
  | u :: a', v :: b' =>
      (if Rlt_dec (Rabs (u - v)) tol then true else false) && is_close a' b' tol
  | _, _ => false
  end.

(** ** Vectors (sscanss/core/math/vector.py) *)

(** Modelled from the spec: vector.py (Vector3, Vector4) is not among the
    sources; a vector is its components, [+] and [*] by a scalar act per
    component, [|] is the dot product, [^] the cross product, [length] the
    Euclidean norm and [normalized] divides by the length unless it is zero
    (as [Quaternion.normalize] does). *)
Record Vector3 : Type := mkVector3 { v3x : R; v3y : R; v3z : R }.

Definition Vector3_zero : Vector3 := mkVector3 0 0 0.

Definition v3add (a b : Vector3) : Vector3 :=
  mkVector3 (v3x a + v3x b) (v3y a + v3y b) (v3z a + v3z b).

Definition v3scale (a : Vector3) (k : R) : Vector3 :=
  mkVector3 (v3x a * k) (v3y a * k) (v3z a * k).

Definition v3dot (a b : Vector3) : R :=
  v3x a * v3x b + v3y a * v3y b + v3z a * v3z b.

Definition v3cross (a b : Vector3) : Vector3 :=
  mkVector3 (v3y a * v3z b - v3z a * v3y b)
            (v3z a * v3x b - v3x a * v3z b)
            (v3x a * v3y b - v3y a * v3x b).

Definition v3length (a : Vector3) : R := sqrt (v3dot a a).

Definition v3normalized (a : Vector3) : Vector3 :=
  if Req_dec_T (v3length a) 0 then a else v3scale a (/ v3length a).

(** Division of a vector by a scalar where the source does not guard the
    divisor: the zero divisor is an error of its own. *)
Definition v3div (a : Vector3) (s : R) : result Vector3 :=
  if Req_dec_T s 0 then Raise ZeroDivisionError else Ok (v3scale a (/ s)).

(** ** Rotation matrices (sscanss/core/math/matrix.py) *)

(** Modelled from the spec: matrix.py (Matrix33, Matrix44) is not among the
    sources; a Matrix33 is its nine entries [m11 .. m33] (row, column), as
    the attributes [Quaternion.fromMatrix] reads. *)
Record Matrix33 : Type := mkMatrix33 {
  m11 : R; m12 : R; m13 : R;
  m21 : R; m22 : R; m23 : R;
  m31 : R; m32 : R; m33 : R }.

(** ** sscanss/core/math/quaternion.py *)

Definition eps : R := 1 / 10000000.

(** [Quaternion(w, x, y, z)]; [_data] is the Vector4 [[x, y, z, w]]. *)
Record Quaternion : Type := mkQuaternion { qw : R; qx : R; qy : R; qz : R }.

Definition Quaternion_identity : Quaternion := mkQuaternion 1 0 0 0.

(** [Quaternion()]: all four components default to 0.0. *)
Definition Quaternion_default : Quaternion := mkQuaternion 0 0 0 0.

Definition axis (q : Quaternion) : Vector3 := mkVector3 (qx q) (qy q) (qz q).

Definition conjugate (q : Quaternion) : Quaternion :=
  mkQuaternion (qw q) (- qx q) (- qy q) (- qz q).

(** [self._data.length] *)
Definition magnitude (q : Quaternion) : R :=
  sqrt (qx q * qx q + qy q * qy q + qz q * qz q + qw q * qw q).

Definition toMatrix (q : Quaternion) : Matrix33 :=
  let twoxx := 2 * qx q * qx q in
  let twoyy := 2 * qy q * qy q in
  let twozz := 2 * qz q * qz q in
  let twowx := 2 * qw q * qx q in
  let twowy := 2 * qw q * qy q in
  let twowz := 2 * qw q * qz q in
  let twoxy := 2 * qx q * qy q in
  let twoxz := 2 * qx q * qz q in
  let twoyz := 2 * qy q * qz q in
  mkMatrix33 (1 - twoyy - twozz) (twoxy - twowz) (twoxz + twowy)
             (twoxy + twowz) (1 - twoxx - twozz) (twoyz - twowx)
             (twoxz - twowy) (twoyz + twowx) (1 - twoxx - twoyy).

(** [math.acos] and [math.sqrt] raise ValueError outside their domains. *)
Definition math_acos (v : R) : result R :=
  if Rlt_dec v (-1) then Raise ValueError
  else if Rlt_dec 1 v then Raise ValueError
  else Ok (acos v).

Definition math_sqrt (v : R) : result R :=
  if Rlt_dec v 0 then Raise ValueError else Ok (sqrt v).

Definition toAxisAngle (q : Quaternion) : result (Vector3 * R) :=
  match math_acos (qw q) with
  | Raise e => Raise e
  | Ok a =>
      let angle := 2 * a in
      match math_sqrt (1 - qw q * qw q) with
      | Raise e => Raise e
      | Ok s =>
          if Rlt_dec angle eps then Ok (Vector3_zero, angle)
          else
            match v3div (mkVector3 (qx q) (qy q) (qz q)) s with
            | Raise e => Raise e
            | Ok ax => Ok (ax, angle)
            end
      end
  end.

Definition normalize (q : Quaternion) : Quaternion :=
  let length := magnitude q in
  if Req_dec_T length 0 then Quaternion_default
  else mkQuaternion (qw q / length) (qx q / length) (qy q / length) (qz q / length).

Definition inverse (q : Quaternion) : Quaternion := normalize (conjugate q).

(** [__mul__]: the Hamilton product. *)
Definition qmul (q1 q2 : Quaternion) : Quaternion :=
  let w1 := qw q1 in
  let w2 := qw q2 in
  let v1 := axis q1 in
  let v2 := axis q2 in
  let w := w1 * w2 - v3dot v1 v2 in
  let v := v3add (v3add (v3scale v2 w1) (v3scale v1 w2)) (v3cross v1 v2) in
  mkQuaternion w (v3x v) (v3y v) (v3z v).

Definition rotate (q : Quaternion) (point : Vector3) : Vector3 :=
  let p := mkQuaternion 0 (v3x point) (v3y point) (v3z point) in
  let q_inv := inverse q in
  let rotated := qmul (qmul q p) q_inv in
  axis rotated.

Definition fromAxisAngle (ax : Vector3) (angle : R) : Quaternion :=
  let w := cos (angle / 2) in
  let v := v3scale (v3normalized ax) (sin (angle / 2)) in
  mkQuaternion w (v3x v) (v3y v) (v3z v).

(** The branch selection of [fromMatrix]: the value [t] and the list [q]
    before the scaling by [0.5 / sqrt(t)]. *)
Definition fromMatrix_tq (m : Matrix33) : R * (R * R * R * R) :=
  if Rlt_dec (m33 m) eps then
    if Rgt_dec (m11 m) (m22 m) then
      let t := 1 + m11 m - m22 m - m33 m in
      (t, (m32 m - m23 m, t, m12 m + m21 m, m13 m + m31 m))
    else
      let t := 1 - m11 m + m22 m - m33 m in
      (t, (m13 m - m31 m, m12 m + m21 m, t, m23 m + m32 m))
  else
    if Rlt_dec (m11 m) (- m22 m) then
      let t := 1 - m11 m - m22 m + m33 m in
      (t, (m21 m - m12 m, m13 m + m31 m, m23 m + m32 m, t))
    else
      let t := 1 + m11 m + m22 m + m33 m in
      (t, (t, m32 m - m23 m, m13 m - m31 m, m21 m - m12 m)).

Definition fromMatrix (m : Matrix33) : result Quaternion :=
  let '(t, (q0, q1, q2, q3)) := fromMatrix_tq m in
  match math_sqrt t with
  | Raise e => Raise e
  | Ok s =>
      if Req_dec_T s 0 then Raise ZeroDivisionError
      else Ok (mkQuaternion (q0 * 0.5 / s) (q1 * 0.5 / s) (q2 * 0.5 / s) (q3 * 0.5 / s))
  end.

(** *** QuaternionVectorPair *)

Record QuaternionVectorPair : Type := mkPair {
  pair_quaternion : Quaternion;
  pair_vector : Vector3 }.

Definition pair_mul (a b : QuaternionVectorPair) : QuaternionVectorPair :=
  let q := qmul (pair_quaternion a) (pair_quaternion b) in
  let v := v3add (rotate (pair_quaternion a) (pair_vector b)) (pair_vector a) in
  mkPair q v.

Definition pair_identity : QuaternionVectorPair :=
  mkPair Quaternion_identity Vector3_zero.

(** ** Arrays *)

(** Modelled from the spec: matrix.py and the numpy arrays the code uses
    are not among the sources; a Matrix44, and any 2-d array, is the list of
    its rows, [@] is the matrix product. *)
Definition Matrix : Type := list (list R).
Definition Matrix44 : Type := Matrix.

Fixpoint dot (a b : list R) : R :=
  match a, b with
  | u :: a', v :: b' => u * v + dot a' b'
  | _, _ => 0
  end.

Definition column (j : nat) (m : Matrix) : list R := map (fun row => nth j row 0) m.

Definition mat_vec (m : Matrix) (v : list R) : list R := map (fun row => dot row v) m.

Definition mat_mul (a b : Matrix) : Matrix :=
  map (fun row => map (fun j => dot row (column j b)) (seq 0 (length (hd [] b)))) a.

Definition Matrix44_identity : Matrix44 :=
  [[1; 0; 0; 0]; [0; 1; 0; 0]; [0; 0; 1; 0]; [0; 0; 0; 1]].

(** [QuaternionVectorPair.toMatrix]: the rotation block and the translation
    column written into an identity matrix. *)
Definition pair_toMatrix (p : QuaternionVectorPair) : Matrix44 :=
  let r := toMatrix (pair_quaternion p) in
  let v := pair_vector p in
  [[m11 r; m12 r; m13 r; v3x v];
   [m21 r; m22 r; m23 r; v3y v];
   [m31 r; m32 r; m33 r; v3z v];
   [0; 0; 0; 1]].

(** In-place update of one element of a list; out of range it is unused
    here (every index the code writes to was read first). *)
Fixpoint list_set {A : Type} (n : nat) (v : A) (l : list A) : list A :=
  match n, l with
  | _, [] => []
  | O, _ :: t => v :: t
  | S n', h :: t => h :: list_set n' v t
  end.

(** ** sscanss/core/instrument/robotics.py: Link *)

Inductive LinkType : Type := Revolute | Prismatic.

(** The mesh and the name of a link are carried, never read by the
    kinematics; they are left out. *)
Record Link : Type := mkLink {
  joint_axis : Vector3;
  quaternion : Quaternion;
  vector : Vector3;
  home : Vector3;
  type : LinkType;
  lower_limit : option R;
  upper_limit : option R;
  default_offset : R;
  set_point : R;
  offset : R;
  locked : bool;
  ignore_limits : bool }.

Definition move (l : Link) (new_offset : R) (ignore_locks setpoint : bool) : Link :=
  if locked l && negb ignore_locks then l
  else
    let sp := if setpoint then new_offset else set_point l in
    match type l with
    | Revolute =>
        let q := fromAxisAngle (joint_axis l) new_offset in
        mkLink (joint_axis l) q (rotate q (home l)) (home l) (type l)
               (lower_limit l) (upper_limit l) (default_offset l)
               sp new_offset (locked l) (ignore_limits l)
    | Prismatic =>
        mkLink (joint_axis l) (quaternion l)
               (v3add (home l) (v3scale (joint_axis l) new_offset)) (home l) (type l)
               (lower_limit l) (upper_limit l) (default_offset l)
               sp new_offset (locked l) (ignore_limits l)
    end.

(** [Link.reset]: [self.move(self.default_offset, True)], the set-point
    flag left at its default [True]. *)
Definition Link_reset (l : Link) : Link := move l (default_offset l) true true.

Definition set_locked (b : bool) (l : Link) : Link :=
  mkLink (joint_axis l) (quaternion l) (vector l) (home l) (type l)
         (lower_limit l) (upper_limit l) (default_offset l)
         (set_point l) (offset l) b (ignore_limits l).

Definition set_ignore_limits (b : bool) (l : Link) : Link :=
  mkLink (joint_axis l) (quaternion l) (vector l) (home l) (type l)
         (lower_limit l) (upper_limit l) (default_offset l)
         (set_point l) (offset l) (locked l) b.

(** [Link.__init__]: the axis is checked, the fields are set and the link is
    reset; before the reset [offset] does not exist yet (the reset gives it
    its value, so the placeholder below is never read). *)
Definition Link_init (ax point : Vector3) (joint_type : LinkType)
    (default upper lower : option R) : result Link :=
  let d := match default with Some v => v | None => 0 end in
  if Rlt_dec (v3length ax) 0.00001 then Raise ValueError
  else Ok (Link_reset
             (mkLink ax (fromAxisAngle ax 0) point point joint_type
                     lower upper d d d false false)).

Definition quaterionVectorPair (l : Link) : QuaternionVectorPair :=
  mkPair (quaternion l) (vector l).

(** ** SerialManipulator *)

Record SerialManipulator : Type := mkSerialManipulator {
  links : list Link;
  base : Matrix44;
  default_base : Matrix44;
  tool : Matrix44 }.

Definition SerialManipulator_init (ls : list Link) (b t : option Matrix44) : SerialManipulator :=
  let b' := match b with Some m => m | None => Matrix44_identity end in
  let t' := match t with Some m => m | None => Matrix44_identity end in
  mkSerialManipulator ls b' b' t'.

Definition numberOfLinks (s : SerialManipulator) : Z := Z.of_nat (length (links s)).

(** [start = 0 if start_index < 0 else start_index] *)
Definition fkine_start (start_index : Z) : Z :=
  if (start_index <? 0)%Z then 0%Z else start_index.

(** [end = link_count if end_index is None or end_index > link_count else end_index] *)
Definition fkine_end (link_count : Z) (end_index : option Z) : Z :=
  match end_index with
  | None => link_count
  | Some e => if (e >? link_count)%Z then link_count else e
  end.

(** [range(start, end)] for [0 <= start]: the indices are never negative. *)
Definition range (start stop : Z) : list nat :=
  seq (Z.to_nat start) (Z.to_nat (stop - start)).

(** The loop of [fkine]: link [i] is moved in place and its pose is
    multiplied into [qs]; [q[i]] raises IndexError when [q] is too short,
    the links moved before stay moved. *)
Fixpoint fkine_loop (idx : list nat) (q : list R) (ignore_locks setpoint : bool)
    (ls : list Link) (qs : QuaternionVectorPair)
    : list Link * result QuaternionVectorPair :=
  match idx with
  | [] => (ls, Ok qs)
  | i :: rest =>
      match nth_error ls i, nth_error q i with
      | Some l, Some qi =>
          let l' := move l qi ignore_locks setpoint in
          fkine_loop rest q ignore_locks setpoint (list_set i l' ls)
                     (pair_mul qs (quaterionVectorPair l'))
      | _, _ => (ls, Raise IndexError)
      end
  end.

Definition fkine (s : SerialManipulator) (q : list R) (start_index : Z)
    (end_index : option Z) (include_base ignore_locks setpoint : bool)
    : SerialManipulator * result Matrix44 :=
  let link_count := numberOfLinks s in
  let start := fkine_start start_index in
  let stop := fkine_end link_count end_index in
  let b := if include_base && (start =? 0)%Z then base s else Matrix44_identity in
  let t := if (stop =? link_count)%Z then tool s else Matrix44_identity in
  let '(ls, r) := fkine_loop (range start stop) q ignore_locks setpoint
                             (links s) pair_identity in
  let s' := mkSerialManipulator ls (base s) (default_base s) (tool s) in
  match r with
  | Raise e => (s', Raise e)
  | Ok qs => (s', Ok (mat_mul (mat_mul b (pair_toMatrix qs)) t))
  end.

Definition resetOffsets (s : SerialManipulator) : SerialManipulator :=
  mkSerialManipulator (map Link_reset (links s)) (base s) (default_base s) (tool s).

Definition reset (s : SerialManipulator) : SerialManipulator :=
  mkSerialManipulator
    (map (fun l => set_ignore_limits false (set_locked false (Link_reset l))) (links s))
    (default_base s) (default_base s) (tool s).

Definition set_points (s : SerialManipulator) : list R := map set_point (links s).

Definition configuration (s : SerialManipulator) : list R := map offset (links s).

Definition pose (s : SerialManipulator) : Matrix44 :=
  let qs := fold_left (fun acc l => pair_mul acc (quaterionVectorPair l)) (links s) pair_identity in
  mat_mul (mat_mul (base s) (pair_toMatrix qs)) (tool s).

(** ** Trajectories *)

(** [np.linspace(start, stop, num)]: [num] samples, both ends included. *)
Definition linspace (start stop : R) (num : nat) : list R :=
  match num with
  | O => []
  | S O => [start]
  | _ => map (fun k => start + INR k * ((stop - start) / INR (num - 1))) (seq 0 num)
  end.

Fixpoint remove_nth {A : Type} (n : nat) (l : list A) : list A :=
  match n, l with
  | _, [] => []
  | O, _ :: t => t
  | S n', h :: t => h :: remove_nth n' t
  end.

Definition minor (i j : nat) (m : Matrix) : Matrix :=
  map (remove_nth j) (remove_nth i m).

Definition Rsum (l : list R) : R := fold_right Rplus 0 l.

(** Determinant of an [n] x [n] array, expanded along its first row. *)
Fixpoint det (n : nat) (m : Matrix) : R :=
  match n with
  | O => 1
  | S n' =>
      Rsum (map (fun j => (-1) ^ j * nth j (hd [] m) 0 * det n' (minor 0 j m)) (seq 0 n))
  end.

(** [np.linalg.inv] of an [n] x [n] array: LinAlgError on a singular array,
    else the transposed cofactors over the determinant. *)
Definition linalg_inv (n : nat) (m : Matrix) : result Matrix :=
  let d := det n m in
  if Req_dec_T d 0 then Raise LinAlgError
  else Ok (map (fun i =>
                  map (fun j => (-1) ^ (i + j) * det (n - 1) (minor j i m) / d) (seq 0 n))
               (seq 0 n)).

(** [np.polyval(p, x)]: the coefficients of [p] from the highest degree
    down, by Horner's rule. *)
Definition polyval (p : list R) (x : R) : R :=
  fold_left (fun acc c => acc * x + c) p 0.

Definition cubic_polynomial_trajectory (p0 p1 : R) (step : nat) : result (list R) :=
  let t0 := 0 in
  let tf := INR step in
  let t := linspace t0 tf step in
  let t0_2 := t0 * t0 in
  let t0_3 := t0_2 * t0 in
  let tf_2 := tf * tf in
  let tf_3 := tf_2 * tf in
  let m := [[1; t0; t0_2; t0_3];
            [0; 1; 2 * t0; 3 * t0_2];
            [1; tf; tf_2; tf_3];
            [0; 1; 2 * tf; 3 * tf_2]] in
  let v0 := 0 in
  let v1 := 0 in
  let b := [p0; v0; p1; v1] in
  match linalg_inv 4 m with
  | Raise e => Raise e
  | Ok mi =>
      let a := mat_vec mi b in
      Ok (map (polyval (rev a)) t)
  end.

(** [np.zeros((rows, cols))] *)
Definition zeros (rows cols : nat) : Matrix := repeat (repeat 0 cols) rows.

(** [trajectory[:, i] = t] for [t] with as many entries as there are rows. *)
Definition set_column (i : nat) (t : list R) (m : Matrix) : Matrix :=
  map (fun rv => list_set i (snd rv) (fst rv)) (combine m t).

Fixpoint joint_space_trajectory_loop (idx : list nat) (start_pose stop_pose : list R)
    (step : nat) (trajectory : Matrix) : result Matrix :=
  match idx with
  | [] => Ok trajectory
  | i :: rest =>
      match nth_error start_pose i, nth_error stop_pose i with
      | Some p0, Some p1 =>
          match cubic_polynomial_trajectory p0 p1 step with
          | Raise e => Raise e
          | Ok t =>
              joint_space_trajectory_loop rest start_pose stop_pose step
                                          (set_column i t trajectory)
          end
      | _, _ => Raise IndexError
      end
  end.

Definition joint_space_trajectory (start_pose stop_pose : list R) (step : nat)
    : result Matrix :=
  let dof := length start_pose in
  let trajectory := zeros step dof in
  joint_space_trajectory_loop (seq 0 dof) start_pose stop_pose step trajectory.

(** ** Sequence: the animation of a trajectory *)

(** Modelled from the spec: Qt's QTimeLine, the scheduler of the animation,
    is not among the sources; it is kept as far as [Sequence] uses it: a
    duration, a frame range, the current time and the state.  The frame shown at a time is
    given by the easing curve of the time line, the parameter
    [frameForTime] of the operations below.  A time line that plays forward once ends at its
    duration. *)
Inductive TimeLineState : Type := NotRunning | Paused | Running.

Record QTimeLine : Type := mkQTimeLine {
  duration : Z;
  startFrame : Z;
  endFrame : Z;
  currentTime : Z;
  state : TimeLineState }.

Record Sequence : Type := mkSequence {
  timeline : QTimeLine;
  trajectory : Matrix;
  step : nat;
  frame_changed : nat  (* how many times the signal was emitted *) }.

(** [array[index]] on the first axis: a negative index counts from the end. *)
Definition array_row {A : Type} (m : list A) (index : Z) : result A :=
  let n := Z.of_nat (length m) in
  let i := if (index <? 0)%Z then (index + n)%Z else index in
  if (i <? 0)%Z then Raise IndexError
  else match nth_error m (Z.to_nat i) with
       | Some row => Ok row
       | None => Raise IndexError
       end.

Section SequenceOperations.

(** The easing curve: the frame shown at a time, for a duration, a start
    frame and an end frame. *)
Variable frameForTime : Z -> Z -> Z -> Z -> Z.

(** What the frame callback acts on, and the callback. *)
Variable World : Type.
Variable frames : list R -> World -> World.

Definition currentFrame (tl : QTimeLine) : Z :=
  frameForTime (duration tl) (startFrame tl) (endFrame tl) (currentTime tl).

(** [QTimeLine.setCurrentTime]: the time is set (a time at or past the
    duration ends the single loop at the duration), [frameChanged] is
    emitted with the new frame when the frame differs from the one before,
    and a running time line that reached its end is stopped. *)
Definition QTimeLine_setCurrentTime (msec : Z) (tl : QTimeLine) : QTimeLine * list Z :=
  let lastFrame := currentFrame tl in
  let finished := (duration tl <=? msec)%Z in
  let time := if finished then duration tl else msec in
  let st := match state tl with
            | Running => if finished then NotRunning else Running
            | s => s
            end in
  let tl' := mkQTimeLine (duration tl) (startFrame tl) (endFrame tl) time st in
  (tl', if (lastFrame =? currentFrame tl')%Z then [] else [currentFrame tl']).

Definition QTimeLine_stop (tl : QTimeLine) : QTimeLine :=
  mkQTimeLine (duration tl) (startFrame tl) (endFrame tl) (currentTime tl) NotRunning.

Definition QTimeLine_setFrameRange (s e : Z) (tl : QTimeLine) : QTimeLine :=
  mkQTimeLine (duration tl) s e (currentTime tl) (state tl).

(** [Sequence.animate], the slot of [frameChanged]. *)
Definition animate (index : Z) (sw : Sequence * World) : result (Sequence * World) :=
  let '(s, w) := sw in
  match array_row (trajectory s) index with
  | Raise e => Raise e
  | Ok row =>
      Ok (mkSequence (timeline s) (trajectory s) (step s) (S (frame_changed s)),
          frames row w)
  end.

(** The slots run while the signal is emitted, one emission after the other. *)
Fixpoint emit_frameChanged (emitted : list Z) (sw : Sequence * World)
    : result (Sequence * World) :=
  match emitted with
  | [] => Ok sw
  | index :: rest =>
      match animate index sw with
      | Raise e => Raise e
      | Ok sw' => emit_frameChanged rest sw'
      end
  end.

Definition with_timeline (tl : QTimeLine) (s : Sequence) : Sequence :=
  mkSequence tl (trajectory s) (step s) (frame_changed s).

(** [Sequence.__init__]: the time line is moved to its end before the
    slot is connected, so that emission reaches nobody. *)
Definition Sequence_init (start stop : list R) (dur : Z) (n : nat) : result Sequence :=
  let tl := mkQTimeLine dur 0 0 0 NotRunning in
  let tl := QTimeLine_setFrameRange 0 (Z.of_nat n - 1) tl in
  match joint_space_trajectory start stop n with
  | Raise e => Raise e
  | Ok tr =>
      let tl := fst (QTimeLine_setCurrentTime (duration tl) tl) in
      Ok (mkSequence tl tr n 0)
  end.

Definition Sequence_stop (sw : Sequence * World) : result (Sequence * World) :=
  let '(s, w) := sw in
  let '(tl, emitted) :=
    if (currentTime (timeline s) <? duration (timeline s))%Z
    then QTimeLine_setCurrentTime (duration (timeline s)) (timeline s)
    else (timeline s, []) in
  match emit_frameChanged emitted (with_timeline tl s, w) with
  | Raise e => Raise e
  | Ok (s', w') => Ok (with_timeline (QTimeLine_stop (timeline s')) s', w')
  end.

Definition isRunning (s : Sequence) : bool :=
  match state (timeline s) with
  | Running => true
  | _ => false
  end.

End SequenceOperations.

(** ** numeric_inverse_kinematics *)

(** Boolean mask indexing of numpy arrays: [a[mask]] and [a[mask] = q]. *)
Fixpoint mask_select {A : Type} (a : list A) (mask : list bool) : result (list A) :=
  match a, mask with
  | [], [] => Ok []
  | v :: a', m :: mask' =>
      match mask_select a' mask' with
      | Raise e => Raise e
      | Ok r => Ok (if m then v :: r else r)
      end
  | _, _ => Raise IndexError
  end.

Fixpoint mask_fill {A : Type} (a : list A) (mask : list bool) (q : list A) : list A :=
  match a, mask with
  | v :: a', m :: mask' =>
      if m then
        match q with
        | u :: q' => u :: mask_fill a' mask' q'
        | [] => v :: mask_fill a' mask' []
        end
      else v :: mask_fill a' mask' q
  | _, _ => a
  end.

(** [a[mask] = q]: as many values as the mask selects, or one value for all. *)
Definition mask_assign {A : Type} (a : list A) (mask : list bool) (q : list A)
    : result (list A) :=
  let count := length (filter (fun m => m) mask) in
  if negb (length a =? length mask)%nat then Raise IndexError
  else if (length q =? count)%nat then Ok (mask_fill a mask q)
  else match q with
       | [u] => Ok (mask_fill a mask (repeat u count))
       | _ => Raise ValueError
       end.

Fixpoint vec_add (a b : list R) : list R :=
  match a, b with
  | u :: a', v :: b' => (u + v) :: vec_add a' b'
  | _, _ => []
  end.

Fixpoint vec_sub (a b : list R) : list R :=
  match a, b with
  | u :: a', v :: b' => (u - v) :: vec_sub a' b'
  | _, _ => []
  end.

(** The cost of [opt] once the pose [H] is known: the squared error of the
    position and of the orientation. *)
Definition pose_error (target_pose current_pose : list R) (H : Matrix44) : R :=
  let rot := map (firstn 3) (firstn 3 H) in
  let trans := column 3 (firstn 3 H) in
  let err1 :=
    vec_sub (firstn 3 target_pose)
            (vec_add (mat_vec rot (firstn 3 current_pose)) trans)
    ++ vec_sub (firstn 3 (skipn 3 target_pose))
               (mat_vec rot (firstn 3 (skipn 3 current_pose))) in
  dot err1 err1.

(** Modelled from the spec: scipy's [optimize.dual_annealing], the global
    search, is not among the sources; it is seen from the function it
    minimises: it asks for the value at a point, reports a minimum to the
    callback, which may tell it to stop, or finishes with [r.x]. *)
Inductive Search : Type :=
| Finish (x : list R)
| Evaluate (q : list R) (k : R -> Search)
| Callback (x : list R) (f : R) (k : bool -> Search).

Section NumericInverseKinematics.

(** The positioner [ri]: what the solver reads and calls. *)
Variable Robot : Type.
Variable ri_configuration : Robot -> list R.
Variable ri_locked : Robot -> list bool.
Variable ri_fkine : Robot -> list R -> Robot * result Matrix44.
Variable ri_tool_link : Robot -> Matrix44.

Variable dual_annealing : list (R * R) -> list R -> Search.

(** The variables [opt] shares with the solver; [best_result] starts at
    [np.inf], here [None]. *)
Record OptState : Type := mkOptState {
  ri : Robot;
  conf : list R;
  best_result : option R }.

Definition lt_best (err : R) (best : option R) : bool :=
  match best with
  | None => true
  | Some b => if Rlt_dec err b then true else false
  end.

Definition opt (target_pose current_pose : list R) (mask : list bool) (tolerance : R)
    (q : list R) (st : OptState) : result R * OptState :=
  match mask_assign (conf st) mask q with
  | Raise e => (Raise e, st)
  | Ok c =>
      let '(r, fk) := ri_fkine (ri st) c in
      match fk with
      | Raise e => (Raise e, mkOptState r c (best_result st))
      | Ok m =>
          let H := mat_mul m (ri_tool_link r) in
          let err := pose_error target_pose current_pose H in
          let best := if lt_best err (best_result st) then Some err else best_result st in
          let st' := mkOptState r c best in
          if Rlt_dec err tolerance then (Raise StopOptimizingException, st')
          else (Ok err, st')
      end
  end.

Definition callback (tolerance : R) (f : R) : bool :=
  if Rlt_dec f tolerance then true else false.

(** The search runs [opt] at the points it asks for; an exception of [opt]
    ends it. *)
Fixpoint run_search (target_pose current_pose : list R) (mask : list bool)
    (tolerance : R) (s : Search) (st : OptState) : result (list R) * OptState :=
  match s with
  | Finish x => (Ok x, st)
  | Evaluate q k =>
      match opt target_pose current_pose mask tolerance q st with
      | (Raise e, st') => (Raise e, st')
      | (Ok err, st') => run_search target_pose current_pose mask tolerance (k err) st'
      end
  | Callback _ f k =>
      run_search target_pose current_pose mask tolerance (k (callback tolerance f)) st
  end.

Definition numeric_inverse_kinematics (r : Robot) (target_pose current_pose : list R)
    (bounds : list (R * R)) (tol : R) : result (list R) * Robot :=
  let tolerance := tol * tol in
  let c := ri_configuration r in
  let mask := map negb (ri_locked r) in
  match mask_select c mask with
  | Raise e => (Raise e, r)
  | Ok q0 =>
      match mask_select bounds mask with
      | Raise e => (Raise e, r)
      | Ok _bounds =>
          match opt target_pose current_pose mask tolerance q0 (mkOptState r c None) with
          | (Raise e, st) => (Raise e, ri st)
          | (Ok best, st) =>
              if Rlt_dec best tolerance then (Ok q0, ri st)
              else
                match run_search target_pose current_pose mask tolerance
                                 (dual_annealing _bounds q0)
                                 (mkOptState (ri st) (conf st) (Some best)) with
                | (Ok x, st') => (Ok x, ri st')
                | (Raise StopOptimizingException, st') => (Ok (conf st'), ri st')
                | (Raise e, st') => (Raise e, ri st')
                end
          end
      end
  end.

End NumericInverseKinematics.

(** A positioner made of one serial manipulator and the matrix of its tool
    link: the instance of [ri] used for concrete runs. *)
Record Positioner : Type := mkPositioner {
  manipulator : SerialManipulator;
  tool_link : Matrix44 }.

Definition Positioner_configuration (p : Positioner) : list R :=
  configuration (manipulator p).

Definition Positioner_locked (p : Positioner) : list bool :=
  map locked (links (manipulator p)).

Definition Positioner_fkine (p : Positioner) (q : list R) : Positioner * result Matrix44 :=
  let '(s, m) := fkine (manipulator p) q 0 None true false true in
  (mkPositioner s (tool_link p), m).

(** ** sscanss/core/math/misc.py, continued *)

(** [clamp]: [max(min(value, max_value), min_value)]. *)
Definition clamp (value min_value max_value : R) : R :=
  Rmax (Rmin value max_value) min_value.

(** [map_range]: the division by [old_max - old_min] is not guarded. *)
Definition map_range (old_min old_max new_min new_max value : R) : result R :=
  if Req_dec_T (old_max - old_min) 0 then Raise ZeroDivisionError
  else Ok (new_min + ((value - old_min) * (new_max - new_min) / (old_max - old_min))).

(** [math.trunc]: the integer part, towards zero. *)
Definition math_trunc (v : R) : Z :=
  if Rle_dec 0 v then (up v - 1)%Z else (- (up (- v) - 1))%Z.

(** [trunc]: [step = 10 ** decimals], [math.trunc(value * step) / step],
    with the product and the quotient taken exactly; with [decimals = 0],
    the default, the code takes them exactly too ([step] is 1). *)
Definition trunc (value : R) (decimals : Z) : R :=
  let step := powerRZ 10 decimals in
  IZR (math_trunc (value * step)) / step.

(** ** SerialManipulator, continued *)

Definition set_set_point (v : R) (l : Link) : Link :=
  mkLink (joint_axis l) (quaternion l) (vector l) (home l) (type l)
         (lower_limit l) (upper_limit l) (default_offset l)
         v (offset l) (locked l) (ignore_limits l).

(** The [set_points] setter: [zip(q, self.links)] stops at the shorter. *)
Fixpoint set_points_links (q : list R) (ls : list Link) : list Link :=
  match q, ls with
  | v :: q', l :: ls' => set_set_point v l :: set_points_links q' ls'
  | _, _ => ls
  end.

Definition set_set_points (s : SerialManipulator) (q : list R) : SerialManipulator :=
  mkSerialManipulator (set_points_links q (links s)) (base s) (default_base s) (tool s).

(** * Definitions used to state the properties *)

(** [__array__]: the components in the order of [_data]. *)
Definition Quaternion_data (q : Quaternion) : list R := [qx q; qy q; qz q; qw q].

(** The four values [t] can take, one per branch. *)
Definition t_m11 (m : Matrix33) : R := 1 + m11 m - m22 m - m33 m.
Definition t_m22 (m : Matrix33) : R := 1 - m11 m + m22 m - m33 m.
Definition t_m33 (m : Matrix33) : R := 1 - m11 m - m22 m + m33 m.
Definition t_trace (m : Matrix33) : R := 1 + m11 m + m22 m + m33 m.

(** A proper rotation matrix: orthonormal columns and determinant 1. *)
Definition is_rotation (m : Matrix33) : Prop :=
  m11 m * m11 m + m21 m * m21 m + m31 m * m31 m = 1 /\
  m12 m * m12 m + m22 m * m22 m + m32 m * m32 m = 1 /\
  m13 m * m13 m + m23 m * m23 m + m33 m * m33 m = 1 /\
  m11 m * m12 m + m21 m * m22 m + m31 m * m32 m = 0 /\
  m11 m * m13 m + m21 m * m23 m + m31 m * m33 m = 0 /\
  m12 m * m13 m + m22 m * m23 m + m32 m * m33 m = 0 /\
  m11 m * (m22 m * m33 m - m23 m * m32 m)
  - m12 m * (m21 m * m33 m - m23 m * m31 m)
  + m13 m * (m21 m * m32 m - m22 m * m31 m) = 1.

(** [fromMatrix] takes the branch with the largest value of [t], that is
    the branch of the largest of m11, m22, m33 and the trace. *)
Definition selects_largest (m : Matrix33) : Prop :=
  forall t, In t [t_m11 m; t_m22 m; t_m33 m; t_trace m] -> t <= fst (fromMatrix_tq m).

(** A unit quaternion with rational components. *)
Definition q_example : Quaternion := mkQuaternion (4/9) (6/9) (2/9) (5/9).

(** What [reset] leaves of a link. *)
Definition is_reset (before after : Link) : Prop :=
  offset after = default_offset before /\
  set_point after = default_offset before /\
  default_offset after = default_offset before /\
  locked after = false /\
  ignore_limits after = false.

(** The pose composed from the links [a, a + k) of a list of links. *)
Definition compose_links (ls : list Link) (a k : nat) (qs : QuaternionVectorPair)
    : QuaternionVectorPair :=
  fold_left (fun acc l => pair_mul acc (quaterionVectorPair l)) (firstn k (skipn a ls)) qs.

(** The coefficients [np.linalg.inv(m) . b] comes to, highest degree first. *)
Definition cubic_coefficients (p0 p1 tf : R) : list R :=
  [-2 * (p1 - p0) / (tf * tf * tf); 3 * (p1 - p0) / (tf * tf); 0; p0].

(** Column [i] of the trajectory between two poses. *)
Definition trajectory_column (start_pose stop_pose : list R) (step i : nat) : list R :=
  map (polyval (cubic_coefficients (nth i start_pose 0) (nth i stop_pose 0) (INR step)))
      (linspace 0 (INR step) step).

(** A linear easing curve. *)
Definition linear_frameForTime (d a b t : Z) : Z :=
  if (d <=? t)%Z then b else (a + (b - a) * t / d)%Z.

(** A running animation of two frames, 40 ms into its 100 ms. *)
Definition sequence_example : Sequence :=
  mkSequence (mkQTimeLine 100 0 1 40 Running) [[0]; [10]] 2 0.

(** A prismatic link with its home at the origin, at a given offset. *)
Definition prismatic_link (ax : Vector3) (off : R) (lock : bool) : Link :=
  mkLink ax Quaternion_identity (v3add Vector3_zero (v3scale ax off)) Vector3_zero
         Prismatic None None 0 off off lock false.

Definition axis_x : Vector3 := mkVector3 1 0 0.
Definition axis_y : Vector3 := mkVector3 0 1 0.

(** Two prismatic links along x and y, the second one locked. *)
Definition example_positioner (x y : R) : Positioner :=
  mkPositioner
    (mkSerialManipulator [prismatic_link axis_x x false; prismatic_link axis_y y true]
                         Matrix44_identity Matrix44_identity Matrix44_identity)
    Matrix44_identity.

(** The matrix of a translation. *)
Definition translation (x y z : R) : Matrix44 :=
  [[1; 0; 0; x]; [0; 1; 0; y]; [0; 0; 1; z]; [0; 0; 0; 1]].

Definition example_bounds : list (R * R) := [(-10, 10); (-10, 10)].

(** A search that asks for the value at one point and finishes there. *)
Definition search_once (x : R) : list (R * R) -> list R -> Search :=
  fun _ _ => Evaluate [x] (fun _ => Finish [x]).

(** The solver on the example positioner, at the configuration [0; 2]. *)
Definition example_solve (search : list (R * R) -> list R -> Search)
    (target_pose : list R) : result (list R) * Positioner :=
  numeric_inverse_kinematics Positioner Positioner_configuration Positioner_locked
    Positioner_fkine tool_link search (example_positioner 0 2) target_pose
    [0; 0; 0; 0; 0; 1] example_bounds (1 / 10).

(** The linear map of a 3 x 3 matrix: rows times the vector. *)
Definition m33_apply (m : Matrix33) (v : Vector3) : Vector3 :=
  mkVector3 (m11 m * v3x v + m12 m * v3y v + m13 m * v3z v)
            (m21 m * v3x v + m22 m * v3y v + m23 m * v3z v)
            (m31 m * v3x v + m32 m * v3y v + m33 m * v3z v).

(** The quaternion with all four components negated. *)
Definition qneg (q : Quaternion) : Quaternion :=
  mkQuaternion (- qw q) (- qx q) (- qy q) (- qz q).

(** The links of a chain after each was moved to its offset in [q]. *)
Definition moved_links (q : list R) (ignore_locks setpoint : bool) (ls : list Link)
    : list Link :=
  map (fun lq => move (fst lq) (snd lq) ignore_locks setpoint) (combine ls q).

(** The local poses of a list of links composed from the identity, as
    the [pose] property does. *)
Definition compose_all (ls : list Link) : QuaternionVectorPair :=
  fold_left (fun acc l => pair_mul acc (quaterionVectorPair l)) ls pair_identity.

(** [finishes s x]: the search [s] can finish with [x]. *)
Inductive finishes : Search -> list R -> Prop :=
| finishes_here (x : list R) : finishes (Finish x) x
| finishes_evaluate (q : list R) (k : R -> Search) (v : R) (x : list R) :
    finishes (k v) x -> finishes (Evaluate q k) x
| finishes_callback (y : list R) (f : R) (k : bool -> Search) (b : bool) (x : list R) :
    finishes (k b) x -> finishes (Callback y f k) x.

(** [c'] has the length of [c] and the same entry wherever [mask] is false
    (the mask of the solver is false at the locked joints). *)
Definition same_locked (mask : list bool) (c c' : list R) : Prop :=
  length c' = length c /\
  forall i, nth i mask true = false -> nth_error c' i = nth_error c i.

(** A revolute link about the x axis with its home on the y axis, at
    offset 0, and a chain of this link and a locked prismatic one. *)
Definition revolute_link : Link :=
  mkLink axis_x Quaternion_identity (mkVector3 0 1 0) (mkVector3 0 1 0)
         Revolute None None 0 0 0 false false.

Definition example_chain : SerialManipulator :=
  mkSerialManipulator [revolute_link; prismatic_link axis_y 2 true]
                      Matrix44_identity Matrix44_identity Matrix44_identity.

(** A unit quaternion and a pose with it. *)
Definition unit_example : Quaternion := mkQuaternion (3 / 5) (4 / 5) 0 0.

Definition pair_example : QuaternionVectorPair :=
  mkPair unit_example (mkVector3 1 2 3).

(** * Properties *)

(** ** Lists and arrays *)

Lemma length_list_set {A : Type} (n : nat) (v : A) (l : list A) :
  length (list_set n v l) = length l.
Proof.
  revert n; induction l as [|h t IH]; intros [|n]; simpl; try reflexivity.
  now rewrite IH.
Qed.

Lemma nth_error_list_set_eq {A : Type} (n : nat) (v : A) (l : list A) :
  (n < length l)%nat -> nth_error (list_set n v l) n = Some v.
Proof.
  revert n; induction l as [|h t IH]; intros [|n] H; simpl in *; try lia; try reflexivity.
  apply IH; lia.
Qed.

Lemma nth_error_list_set_neq {A : Type} (n i : nat) (v : A) (l : list A) :
  i <> n -> nth_error (list_set n v l) i = nth_error l i.
Proof.
  revert n i; induction l as [|h t IH]; intros [|n] [|i] H; simpl; try reflexivity; try lia.
  apply IH; lia.
Qed.

Lemma nth_list_set_eq {A : Type} (n : nat) (v d : A) (l : list A) :
  (n < length l)%nat -> nth n (list_set n v l) d = v.
Proof.
  revert n; induction l as [|h t IH]; intros [|n] H; simpl in *; try lia; try reflexivity.
  apply IH; lia.
Qed.

Lemma nth_list_set_neq {A : Type} (n i : nat) (v d : A) (l : list A) :
  i <> n -> nth i (list_set n v l) d = nth i l d.
Proof.
  revert n i; induction l as [|h t IH]; intros [|n] [|i] H; simpl; try reflexivity; try lia.
  apply IH; lia.
Qed.

Lemma skipn_nth_error_cons {A : Type} (a : nat) (l : list A) (v : A) :
  nth_error l a = Some v -> skipn a l = v :: skipn (S a) l.
Proof.
  revert a; induction l as [|h t IH]; intros [|a] H; simpl in *; try discriminate.
  - now injection H as ->.
  - now apply IH.
Qed.

Lemma set_column_length (i : nat) (t : list R) (m : Matrix) :
  length t = length m -> length (set_column i t m) = length m.
Proof.
  intros H. unfold set_column. rewrite length_map, length_combine. lia.
Qed.

Lemma set_column_row (i : nat) (t : list R) (m : Matrix) (r : nat) :
  length t = length m -> (r < length m)%nat ->
  nth r (set_column i t m) [] = list_set i (nth r t 0) (nth r m []).
Proof.
  unfold set_column. revert t r.
  induction m as [|row m IH]; intros [|v t] [|r] Hl Hr; simpl in *; try lia; try reflexivity.
  apply IH; lia.
Qed.

Lemma set_column_widths (i : nat) (t : list R) (m : Matrix) (w : nat) :
  Forall (fun row => length row = w) m ->
  Forall (fun row => length row = w) (set_column i t m).
Proof.
  unfold set_column. intros H. revert t.
  induction H as [|row m Hrow Hm IH]; intros [|v t]; simpl; constructor.
  - rewrite length_list_set. exact Hrow.
  - apply IH.
Qed.

Lemma zeros_shape (rows cols : nat) :
  length (zeros rows cols) = rows /\
  Forall (fun row => length row = cols) (zeros rows cols).
Proof.
  unfold zeros. split.
  - apply repeat_length.
  - apply Forall_forall. intros row Hin. apply repeat_spec in Hin. subst.
    apply repeat_length.
Qed.

Lemma linspace_length (a b : R) (n : nat) : length (linspace a b n) = n.
Proof.
  unfold linspace. destruct n as [|[|n]]; try reflexivity.
  rewrite length_map, length_seq. reflexivity.
Qed.

Lemma linspace_first (b : R) (n : nat) : (1 <= n)%nat -> nth 0 (linspace 0 b n) 0 = 0.
Proof.
  unfold linspace. destruct n as [|[|n]]; intros H; try lia; try reflexivity.
  simpl. ring.
Qed.

Lemma linspace_last (b : R) (n : nat) : (2 <= n)%nat -> nth (n - 1) (linspace 0 b n) 0 = b.
Proof.
  unfold linspace. destruct n as [|[|n]]; intros H; try lia.
  set (N := S (S n)) in *.
  set (f := fun k : nat => 0 + INR k * ((b - 0) / INR (N - 1))).
  rewrite (nth_indep _ 0 (f 0%nat)) by (rewrite length_map, length_seq; lia).
  rewrite map_nth. rewrite seq_nth by lia. unfold f. rewrite Nat.add_0_l.
  assert (Hn : INR (N - 1) <> 0) by (apply not_0_INR; lia).
  field. exact Hn.
Qed.

Lemma mask_select_shape {A : Type} (a : list A) (mask : list bool) (q : list A) :
  mask_select a mask = Ok q ->
  length a = length mask /\
  length q = length (filter (fun m => m) mask) /\
  mask_fill a mask q = a.
Proof.
  revert mask q. induction a as [|v a IH]; intros [|m mask] q H; simpl in *; try discriminate.
  - injection H as <-. repeat split; reflexivity.
  - destruct (mask_select a mask) as [r|e] eqn:E; [|discriminate].
    injection H as <-. destruct (IH mask r E) as (Hl & Hc & Hf).
    destruct m; simpl; rewrite ?Hf; repeat split; congruence.
Qed.

Lemma mask_select_assign {A : Type} (a : list A) (mask : list bool) (q : list A) :
  mask_select a mask = Ok q -> mask_assign a mask q = Ok a.
Proof.
  intros H. destruct (mask_select_shape a mask q H) as (Hl & Hc & Hf).
  unfold mask_assign. rewrite Hl, Nat.eqb_refl. simpl.
  rewrite Hc, Nat.eqb_refl. now rewrite Hf.
Qed.

Lemma mask_fill_spec {A : Type} (a : list A) :
  forall (mask : list bool) (q : list A),
    length (mask_fill a mask q) = length a /\
    forall i, nth i mask true = false ->
              nth_error (mask_fill a mask q) i = nth_error a i.
Proof.
  induction a as [|v a IH]; intros [|m mask] q; simpl; try (split; reflexivity).
  destruct m.
  - destruct q as [|u q']; simpl.
    + destruct (IH mask []) as [Hl Hn]. split; [now rewrite Hl|].
      intros [|i] Hi; simpl in *; [discriminate | now apply Hn].
    + destruct (IH mask q') as [Hl Hn]. split; [now rewrite Hl|].
      intros [|i] Hi; simpl in *; [discriminate | now apply Hn].
  - destruct (IH mask q) as [Hl Hn]. simpl. split; [now rewrite Hl|].
    intros [|i] Hi; simpl in *; [reflexivity | now apply Hn].
Qed.

Lemma mask_assign_keeps_locked {A : Type} (a : list A) (mask : list bool) (q c : list A) :
  mask_assign a mask q = Ok c ->
  length c = length a /\
  forall i, nth i mask true = false -> nth_error c i = nth_error a i.
Proof.
  unfold mask_assign. intros H.
  destruct (negb (length a =? length mask)%nat); [discriminate|].
  destruct (length q =? length (filter (fun m => m) mask))%nat.
  - injection H as <-. apply mask_fill_spec.
  - destruct q as [|u [|u' q']]; try discriminate.
    injection H as <-. apply mask_fill_spec.
Qed.

(** ** Quaternions *)

Lemma magnitude_sqr (q : Quaternion) :
  magnitude q = 1 -> qx q * qx q + qy q * qy q + qz q * qz q + qw q * qw q = 1.
Proof.
  unfold magnitude. intros H.
  set (s := qx q * qx q + qy q * qy q + qz q * qz q + qw q * qw q) in *.
  assert (Hs : 0 <= s) by (unfold s; nra).
  rewrite <- (sqrt_sqrt s Hs), H. ring.
Qed.

Lemma magnitude_conjugate (q : Quaternion) : magnitude (conjugate q) = magnitude q.
Proof. unfold magnitude, conjugate; simpl. f_equal. ring. Qed.

Lemma inverse_unit (q : Quaternion) : magnitude q = 1 -> inverse q = conjugate q.
Proof.
  intros H. unfold inverse, normalize. rewrite magnitude_conjugate, H.
  destruct (Req_dec_T 1 0) as [E|_]; [lra|].
  unfold conjugate; simpl. f_equal; field.
Qed.

Lemma qmul_inverse_unit (q : Quaternion) :
  magnitude q = 1 -> qmul q (inverse q) = Quaternion_identity.
Proof.
  intros H. rewrite (inverse_unit q H). pose proof (magnitude_sqr q H) as Hs.
  destruct q as [w x y z]; simpl in Hs.
  unfold qmul, conjugate, Quaternion_identity, v3dot, v3add, v3scale, v3cross, axis; simpl.
  f_equal; try ring. nra.
Qed.

(** C8: for every unit quaternion [q], the Hamilton product of [q] with
    [inverse q] (the conjugate, normalised) is the identity rotation
    (1, 0, 0, 0); its components are within 1e-5 of it, as [is_close]
    checks.  Over the reals the product is the identity exactly. *)
Theorem compose_inverse_is_close (q : Quaternion) :
  magnitude q = 1 ->
  is_close (Quaternion_data (qmul q (inverse q))) (Quaternion_data Quaternion_identity)
           (1 / 100000) = true.
Proof.
  intros H. rewrite (qmul_inverse_unit q H). simpl.
  repeat match goal with
         | |- context [Rlt_dec ?a ?b] =>
             destruct (Rlt_dec a b) as [?|Hn];
             [| exfalso; apply Hn; rewrite Rminus_diag, Rabs_R0; lra]
         end.
  reflexivity.
Qed.

Lemma compose_inverse_is_close_witness :
  magnitude (mkQuaternion (3 / 5) (4 / 5) 0 0) = 1 /\
  is_close (Quaternion_data (qmul (mkQuaternion (3 / 5) (4 / 5) 0 0)
                                  (inverse (mkQuaternion (3 / 5) (4 / 5) 0 0))))
           (Quaternion_data Quaternion_identity) (1 / 100000) = true.
Proof.
  assert (H : magnitude (mkQuaternion (3 / 5) (4 / 5) 0 0) = 1).
  { unfold magnitude; simpl.
    replace (4 / 5 * (4 / 5) + 0 * 0 + 0 * 0 + 3 / 5 * (3 / 5)) with 1 by field.
    apply sqrt_1. }
  split; [exact H|].
  apply (compose_inverse_is_close (mkQuaternion (3 / 5) (4 / 5) 0 0) H).
Defined.

Lemma unit_scalar_bounds (q : Quaternion) : magnitude q = 1 -> -1 <= qw q <= 1.
Proof.
  intros H. pose proof (magnitude_sqr q H) as Hs.
  pose proof (Rle_0_sqr (qx q)). pose proof (Rle_0_sqr (qy q)).
  pose proof (Rle_0_sqr (qz q)). unfold Rsqr in *. split; nra.
Qed.

Lemma toAxisAngle_returns (q : Quaternion) :
  magnitude q = 1 -> qw q <> -1 -> exists r, toAxisAngle q = Ok r.
Proof.
  intros H Hw. pose proof (unit_scalar_bounds q H) as [Hlo Hhi].
  unfold toAxisAngle, math_acos, math_sqrt.
  destruct (Rlt_dec (qw q) (-1)) as [E|_]; [lra|].
  destruct (Rlt_dec 1 (qw q)) as [E|_]; [lra|].
  destruct (Rlt_dec (1 - qw q * qw q) 0) as [E|Hs]; [nra|].
  destruct (Rlt_dec (2 * acos (qw q)) eps) as [_|Hang]; [eexists; reflexivity|].
  unfold v3div.
  destruct (Req_dec_T (sqrt (1 - qw q * qw q)) 0) as [E|_]; [|eexists; reflexivity].
  exfalso. apply sqrt_eq_0 in E; [|lra].
  assert (Hone : qw q = 1) by nra.
  apply Hang. rewrite Hone, acos_1. unfold eps. lra.
Qed.

(** C10, where the code departs from it: the unit quaternion (-1, 0, 0, 0)
    has the angle 2 * pi, which the guard [angle < eps] lets through, and
    [s = sqrt (1 - w * w)] is zero: [toAxisAngle] divides the vector part
    by zero. *)
Lemma toAxisAngle_minus_one :
  magnitude (mkQuaternion (-1) 0 0 0) = 1 /\
  toAxisAngle (mkQuaternion (-1) 0 0 0) = Raise ZeroDivisionError.
Proof.
  split.
  - unfold magnitude; simpl.
    replace (0 * 0 + 0 * 0 + 0 * 0 + -1 * -1) with 1 by ring. apply sqrt_1.
  - unfold toAxisAngle, math_acos, math_sqrt; simpl.
    destruct (Rlt_dec (-1) (-1)) as [E|_]; [lra|].
    destruct (Rlt_dec 1 (-1)) as [E|_]; [lra|].
    replace (1 - -1 * -1) with 0 by ring.
    destruct (Rlt_dec 0 0) as [E|_]; [lra|].
    rewrite sqrt_0.
    assert (Hacos : acos (-1) = PI).
    { replace (-1) with (- (1)) by lra. rewrite acos_opp, acos_1. ring. }
    rewrite Hacos.
    pose proof PI2_3_2 as Hpi.
    destruct (Rlt_dec (2 * PI) eps) as [E|_]; [unfold eps in E; lra|].
    unfold v3div. destruct (Req_dec_T 0 0) as [_|E]; [reflexivity|lra].
Qed.

Lemma toMatrix_rotation (q : Quaternion) : magnitude q = 1 -> is_rotation (toMatrix q).
Proof.
  intros H. pose proof (magnitude_sqr q H) as Hs.
  destruct q as [w x y z]; simpl in Hs.
  unfold is_rotation, toMatrix; simpl.
  assert (Hw : w * w = 1 - x * x - y * y - z * z) by lra.
  repeat split; nsatz.
Qed.

Lemma candidates_follow_entries (m : Matrix33) :
  t_m11 m - t_m22 m = 2 * (m11 m - m22 m) /\
  t_m11 m - t_m33 m = 2 * (m11 m - m33 m) /\
  t_m22 m - t_m33 m = 2 * (m22 m - m33 m) /\
  t_m11 m - t_trace m = 2 * (m11 m - (m11 m + m22 m + m33 m)) /\
  t_m22 m - t_trace m = 2 * (m22 m - (m11 m + m22 m + m33 m)) /\
  t_m33 m - t_trace m = 2 * (m33 m - (m11 m + m22 m + m33 m)).
Proof. unfold t_m11, t_m22, t_m33, t_trace. repeat split; ring. Qed.

(** C7 does not hold as stated: for the rotation matrix of the unit
    quaternion (4/9, 6/9, 2/9, 5/9) the branch of [m33] is taken, with
    [t = 100/81], although [m11] is the largest of m11, m22, m33 and the
    trace and its branch has [t = 144/81]. *)
Lemma fromMatrix_not_largest :
  is_rotation (toMatrix q_example) /\ ~ selects_largest (toMatrix q_example).
Proof.
  split.
  - unfold is_rotation, toMatrix, q_example; simpl. repeat split; lra.
  - intros H. specialize (H (t_m11 (toMatrix q_example))).
    assert (Hin : In (t_m11 (toMatrix q_example))
                     [t_m11 (toMatrix q_example); t_m22 (toMatrix q_example);
                      t_m33 (toMatrix q_example); t_trace (toMatrix q_example)])
      by (left; reflexivity).
    specialize (H Hin). revert H.
    unfold fromMatrix_tq, t_m11, toMatrix, q_example, eps; simpl.
    destruct (Rlt_dec _ _) as [E|_]; [lra|].
    destruct (Rlt_dec _ _) as [_|E]; [|lra].
    simpl. lra.
Qed.

(** C7, amended: for every matrix [fromMatrix] picks its branch by sign
    tests.  When [m33 < eps] the value [t] is the larger of the values of
    the m11 and m22 branches, otherwise the larger of the values of the
    m33 and trace branches; in every case [t] exceeds [1 - eps], so the
    square root is bounded away from zero and a quaternion is returned. *)
Theorem fromMatrix_branch_stable (m : Matrix33) :
  fst (fromMatrix_tq m) =
    (if Rlt_dec (m33 m) eps then Rmax (t_m11 m) (t_m22 m) else Rmax (t_m33 m) (t_trace m))
  /\ 1 - eps < fst (fromMatrix_tq m)
  /\ exists q, fromMatrix m = Ok q.
Proof.
  assert (Ht : fst (fromMatrix_tq m) =
    (if Rlt_dec (m33 m) eps then Rmax (t_m11 m) (t_m22 m) else Rmax (t_m33 m) (t_trace m))
  /\ 1 - eps < fst (fromMatrix_tq m)).
  { unfold fromMatrix_tq, t_m11, t_m22, t_m33, t_trace, eps.
    destruct (Rlt_dec (m33 m) _) as [H3|H3].
    - destruct (Rgt_dec (m11 m) (m22 m)) as [H1|H1]; simpl; split;
        try lra; unfold Rmax; destruct (Rle_dec _ _); lra.
    - destruct (Rlt_dec (m11 m) (- m22 m)) as [H1|H1]; simpl; split;
        try lra; unfold Rmax; destruct (Rle_dec _ _); lra. }
  destruct Ht as [Ht1 Ht2]. split; [exact Ht1|]. split; [exact Ht2|].
  unfold fromMatrix. destruct (fromMatrix_tq m) as [t [[[q0 q1] q2] q3]]. simpl in Ht2.
  assert (Hpos : 0 < t) by (unfold eps in Ht2; lra).
  unfold math_sqrt. destruct (Rlt_dec t 0) as [E|_]; [lra|].
  destruct (Req_dec_T (sqrt t) 0) as [E|_].
  - pose proof (sqrt_lt_R0 t Hpos). lra.
  - eexists; reflexivity.
Qed.

Lemma magnitude_identity : magnitude Quaternion_identity = 1.
Proof.
  unfold magnitude, Quaternion_identity; simpl.
  replace (0 * 0 + 0 * 0 + 0 * 0 + 1 * 1) with 1 by ring. apply sqrt_1.
Qed.

Lemma qmul_identity_l (q : Quaternion) : qmul Quaternion_identity q = q.
Proof.
  destruct q as [w x y z].
  unfold qmul, Quaternion_identity, v3dot, v3add, v3scale, v3cross, axis; simpl.
  f_equal; ring.
Qed.

Lemma rotate_identity (v : Vector3) : rotate Quaternion_identity v = v.
Proof.
  unfold rotate. rewrite (inverse_unit _ magnitude_identity), qmul_identity_l.
  destruct v as [x y z].
  unfold qmul, conjugate, Quaternion_identity, v3dot, v3add, v3scale, v3cross, axis; simpl.
  f_equal; ring.
Qed.

Lemma pair_mul_translations (u v : Vector3) :
  pair_mul (mkPair Quaternion_identity u) (mkPair Quaternion_identity v)
  = mkPair Quaternion_identity (v3add v u).
Proof.
  unfold pair_mul; simpl. now rewrite qmul_identity_l, rotate_identity.
Qed.

Lemma fromAxisAngle_zero (ax : Vector3) : fromAxisAngle ax 0 = Quaternion_identity.
Proof.
  unfold fromAxisAngle, Quaternion_identity.
  replace (0 / 2) with 0 by field. rewrite cos_0, sin_0.
  unfold v3scale; simpl. f_equal; ring.
Qed.

(** ** Links *)

(** C4: on a locked link, [move] without [ignore_locks] changes nothing and
    raises nothing; with [ignore_locks] it stores the offset, stores the
    set-point only when [is_setpoint] holds and recomputes the local pose
    of the link from the new offset. *)
Theorem move_locked (l : Link) (new_offset : R) (is_setpoint : bool) :
  locked l = true ->
  move l new_offset false is_setpoint = l /\
  offset (move l new_offset true is_setpoint) = new_offset /\
  set_point (move l new_offset true is_setpoint)
    = (if is_setpoint then new_offset else set_point l) /\
  quaterionVectorPair (move l new_offset true is_setpoint)
    = match type l with
      | Revolute =>
          mkPair (fromAxisAngle (joint_axis l) new_offset)
                 (rotate (fromAxisAngle (joint_axis l) new_offset) (home l))
      | Prismatic =>
          mkPair (quaternion l) (v3add (home l) (v3scale (joint_axis l) new_offset))
      end.
Proof.
  intros Hl. unfold move. rewrite Hl. simpl.
  split; [reflexivity|].
  destruct (type l); simpl; repeat split; reflexivity.
Qed.

Lemma Link_init_prismatic (ax : Vector3) :
  v3length ax = 1 ->
  Link_init ax Vector3_zero Prismatic None None None = Ok (prismatic_link ax 0 false).
Proof.
  intros Hax. unfold Link_init. rewrite Hax.
  destruct (Rlt_dec 1 0.00001) as [E|_]; [lra|].
  rewrite fromAxisAngle_zero. reflexivity.
Qed.

Lemma axis_y_length : v3length axis_y = 1.
Proof.
  unfold v3length, v3dot, axis_y; simpl.
  replace (0 * 0 + 1 * 1 + 0 * 0) with 1 by ring. apply sqrt_1.
Qed.

Lemma locked_link_reachable (ax : Vector3) (y : R) :
  set_locked true (move (prismatic_link ax 0 false) y false true) = prismatic_link ax y true.
Proof. reflexivity. Qed.

Lemma move_prismatic_free (ax : Vector3) (x c : R) (ignore_locks : bool) :
  move (prismatic_link ax x false) c ignore_locks true = prismatic_link ax c false.
Proof. reflexivity. Qed.

Lemma move_prismatic_locked (ax : Vector3) (y c : R) (setpoint : bool) :
  move (prismatic_link ax y true) c false setpoint = prismatic_link ax y true.
Proof. reflexivity. Qed.

Lemma move_locked_witness :
  locked (prismatic_link axis_y 2 true) = true /\
  move (prismatic_link axis_y 2 true) 7 false true = prismatic_link axis_y 2 true /\
  offset (move (prismatic_link axis_y 2 true) 7 true false) = 7 /\
  set_point (move (prismatic_link axis_y 2 true) 7 true false) = 2 /\
  set_point (move (prismatic_link axis_y 2 true) 7 true true) = 7.
Proof.
  destruct (move_locked (prismatic_link axis_y 2 true) 7 true eq_refl) as (H1 & _ & H4 & _).
  destruct (move_locked (prismatic_link axis_y 2 true) 7 false eq_refl) as (_ & H2 & H3 & _).
  split; [reflexivity|]. split; [exact H1|]. split; [exact H2|].
  split; [exact H3 | exact H4].
Defined.

Lemma Link_reset_fields (l : Link) :
  offset (Link_reset l) = default_offset l /\
  set_point (Link_reset l) = default_offset l /\
  default_offset (Link_reset l) = default_offset l.
Proof.
  unfold Link_reset, move. rewrite andb_false_r.
  destruct (type l); simpl; repeat split; reflexivity.
Qed.

(** ** Serial manipulators *)

(** C5: after [reset], the base of the chain is its default base and every
    link, locked before or not, has its offset and set-point at its default
    offset and both its [locked] and [ignore_limits] flags cleared. *)
Theorem reset_restores_defaults (s : SerialManipulator) :
  base (reset s) = default_base s /\
  default_base (reset s) = default_base s /\
  Forall2 is_reset (links s) (links (reset s)).
Proof.
  unfold reset; simpl. split; [reflexivity|]. split; [reflexivity|].
  induction (links s) as [|l ls IH]; simpl; constructor; [|exact IH].
  destruct (Link_reset_fields l) as (Ho & Hs & Hd).
  unfold is_reset, set_ignore_limits, set_locked; simpl. tauto.
Qed.

Lemma fkine_loop_spec (q : list R) (il sp : bool) (k : nat) :
  forall (a : nat) (ls : list Link) (qs : QuaternionVectorPair),
    (0 < k -> a + k <= length ls)%nat -> (0 < k -> a + k <= length q)%nat ->
    exists ls',
      fkine_loop (seq a k) q il sp ls qs = (ls', Ok (compose_links ls' a k qs)) /\
      length ls' = length ls /\
      (forall i, (a <= i < a + k)%nat ->
                 nth_error ls' i
                 = option_map (fun l => move l (nth i q 0) il sp) (nth_error ls i)) /\
      (forall i, ~ (a <= i < a + k)%nat -> nth_error ls' i = nth_error ls i).
Proof.
  induction k as [|k IH]; intros a ls qs Hls Hq.
  - exists ls. simpl. unfold compose_links. simpl. repeat split; auto. intros; lia.
  - simpl. specialize (Hls ltac:(lia)). specialize (Hq ltac:(lia)).
    destruct (nth_error ls a) as [l|] eqn:El;
      [| apply nth_error_None in El; lia].
    destruct (nth_error q a) as [qi|] eqn:Eq;
      [| apply nth_error_None in Eq; lia].
    set (l' := move l qi il sp).
    destruct (IH (S a) (list_set a l' ls) (pair_mul qs (quaterionVectorPair l')))
      as (ls' & Hrun & Hlen & Hin & Hout).
    { rewrite length_list_set; lia. }
    { lia. }
    exists ls'. rewrite length_list_set in Hlen.
    assert (Ha : nth_error ls' a = Some l').
    { rewrite Hout by lia. apply nth_error_list_set_eq. lia. }
    split; [| split; [exact Hlen | split]].
    + rewrite Hrun. f_equal. f_equal. unfold compose_links.
      rewrite (skipn_nth_error_cons a ls' l' Ha). reflexivity.
    + intros i Hi. destruct (Nat.eq_dec i a) as [->|Hne].
      * rewrite Ha, El. simpl. unfold l'. f_equal. f_equal.
        symmetry. apply nth_error_nth with (d := 0) in Eq. exact Eq.
      * rewrite Hin by lia. rewrite nth_error_list_set_neq by exact Hne. reflexivity.
    + intros i Hi. rewrite Hout by lia. apply nth_error_list_set_neq. lia.
Qed.

Lemma fkine_loop_short (q : list R) (il sp : bool) (k : nat) :
  forall (a : nat) (ls : list Link) (qs : QuaternionVectorPair),
    (a <= length q)%nat -> (length q < a + k)%nat -> (a + k <= length ls)%nat ->
    exists ls',
      fkine_loop (seq a k) q il sp ls qs = (ls', Raise IndexError) /\
      length ls' = length ls /\
      (forall i, (a <= i < length q)%nat ->
                 nth_error ls' i
                 = option_map (fun l => move l (nth i q 0) il sp) (nth_error ls i)) /\
      (forall i, ~ (a <= i < length q)%nat -> nth_error ls' i = nth_error ls i).
Proof.
  induction k as [|k IH]; intros a ls qs Ha Hq Hls; [lia|].
  simpl.
  destruct (nth_error ls a) as [l|] eqn:El; [| apply nth_error_None in El; lia].
  destruct (nth_error q a) as [qi|] eqn:Eq.
  - assert (Hlt : (a < length q)%nat) by (apply nth_error_Some; congruence).
    set (l' := move l qi il sp).
    destruct (IH (S a) (list_set a l' ls) (pair_mul qs (quaterionVectorPair l')))
      as (ls' & Hrun & Hlen & Hin & Hout); try lia.
    { rewrite length_list_set. lia. }
    rewrite length_list_set in Hlen.
    exists ls'. split; [exact Hrun|]. split; [exact Hlen|]. split.
    + intros i Hi. destruct (Nat.eq_dec i a) as [->|Hne].
      * rewrite Hout by lia. rewrite nth_error_list_set_eq by lia. rewrite El. simpl.
        unfold l'. f_equal. f_equal. symmetry. now apply nth_error_nth.
      * rewrite Hin by lia. now rewrite nth_error_list_set_neq.
    + intros i Hi. rewrite Hout by lia. apply nth_error_list_set_neq. lia.
  - apply nth_error_None in Eq.
    exists ls. split; [reflexivity|]. split; [reflexivity|]. split; [intros; lia | reflexivity].
Qed.

Lemma fkine_start_nonneg (start_index : Z) : (0 <= fkine_start start_index)%Z.
Proof. unfold fkine_start. destruct (Z.ltb_spec start_index 0); lia. Qed.

Lemma fkine_end_le (n : Z) (end_index : option Z) : (fkine_end n end_index <= n)%Z.
Proof.
  unfold fkine_end. destruct end_index as [e|]; [|lia].
  destruct (Z.gtb_spec e n); lia.
Qed.

(** C3 does not hold as stated: the start index is only raised to 0 and
    the end index only lowered to the number of links, so a start index
    of 3 and an end index of -1 on a chain of one link stay as they are,
    outside the range from 0 to 1. *)
Lemma fkine_indices_not_clamped :
  ~ (forall (link_count : nat) (start_index : Z) (end_index : option Z),
        (0 <= fkine_start start_index <= Z.of_nat link_count)%Z /\
        (0 <= fkine_end (Z.of_nat link_count) end_index <= Z.of_nat link_count)%Z).
Proof.
  intros H. destruct (H 1%nat 3%Z (Some (-1)%Z)) as [[_ H1] _].
  vm_compute in H1. apply H1. reflexivity.
Qed.

(** The loop of [fkine] over the span of [k] links from [a], for any [q]:
    it runs to its end when [q] has an entry for every link of the span,
    and stops with IndexError at the first link without one. *)
Lemma fkine_loop_runs (q : list R) (il sp : bool) (k a : nat) (ls : list Link)
    (qs : QuaternionVectorPair) :
  (0 < k -> a + k <= length ls)%nat ->
  exists ls',
    fkine_loop (seq a k) q il sp ls qs
    = (ls', if (k =? 0)%nat || (a + k <=? length q)%nat
            then Ok (compose_links ls' a k qs) else Raise IndexError) /\
    length ls' = length ls /\
    (forall i, (a <= i < Nat.min (a + k) (length q))%nat ->
               nth_error ls' i
               = option_map (fun l => move l (nth i q 0) il sp) (nth_error ls i)) /\
    (forall i, ~ (a <= i < Nat.min (a + k) (length q))%nat ->
               nth_error ls' i = nth_error ls i).
Proof.
  intros Hls.
  destruct ((k =? 0)%nat || (a + k <=? length q)%nat) eqn:Ec.
  - assert (Hq : (0 < k -> a + k <= length q)%nat).
    { intros Hk. apply orb_true_iff in Ec. destruct Ec as [E|E].
      - apply Nat.eqb_eq in E. lia.
      - apply Nat.leb_le in E. exact E. }
    destruct (fkine_loop_spec q il sp k a ls qs Hls Hq) as (ls' & Hrun & Hlen & Hin & Hout).
    exists ls'. split; [exact Hrun|]. split; [exact Hlen|]. split.
    + intros i Hi. apply Hin. lia.
    + intros i Hi. apply Hout. lia.
  - apply orb_false_iff in Ec. destruct Ec as [Ek Eq].
    apply Nat.eqb_neq in Ek. apply Nat.leb_gt in Eq.
    destruct (Nat.le_gt_cases a (length q)) as [Ha|Ha].
    + destruct (fkine_loop_short q il sp k a ls qs Ha Eq ltac:(lia))
        as (ls' & Hrun & Hlen & Hin & Hout).
      exists ls'. split; [exact Hrun|]. split; [exact Hlen|]. split.
      * intros i Hi. apply Hin. lia.
      * intros i Hi. apply Hout. lia.
    + destruct k as [|k]; [lia|]. simpl.
      destruct (nth_error ls a) as [l|] eqn:El; [| apply nth_error_None in El; lia].
      destruct (nth_error q a) as [qi|] eqn:Ea.
      * assert (a < length q)%nat by (apply nth_error_Some; congruence). lia.
      * exists ls. split; [reflexivity|]. split; [reflexivity|].
        split; [intros; lia | reflexivity].
Qed.

(** C3, amended: in every call the start index used is the given one raised
    to 0 ([max 0 start_index]) and the end index used is the given one
    lowered to the number of links ([min end_index n], [n] for None), so
    [0 <= start] and [stop <= n] and nothing more. When [q] has an entry
    for every link of the span, [fkine] returns [base @ composed @ tool]
    where the base is the chain's base exactly when [include_base] holds
    and the start is 0 (the identity otherwise), the tool is the chain's
    tool exactly when the end is the number of links (the identity
    otherwise) and [composed] is the pose of the links from [start] up to
    [stop] after the call; otherwise it raises IndexError. The links of
    the span that have an entry in [q] have been moved to it (all of them
    when the call returns); every other link is as before. *)
Theorem fkine_span (s : SerialManipulator) (q : list R) (start_index : Z)
    (end_index : option Z) (include_base ignore_locks setpoint : bool) :
  let n := numberOfLinks s in
  let start := fkine_start start_index in
  let stop := fkine_end n end_index in
  let s' := fst (fkine s q start_index end_index include_base ignore_locks setpoint) in
  let covered := ((stop <=? start) || (stop <=? Z.of_nat (length q)))%Z in
  start = Z.max 0 start_index /\
  stop = match end_index with Some e => Z.min e n | None => n end /\
  (0 <= start)%Z /\ (stop <= n)%Z /\
  snd (fkine s q start_index end_index include_base ignore_locks setpoint)
  = (if covered
     then Ok (mat_mul
                (mat_mul (if include_base && (start =? 0)%Z then base s
                          else Matrix44_identity)
                         (pair_toMatrix
                            (compose_links (links s') (Z.to_nat start)
                                           (Z.to_nat (stop - start)) pair_identity)))
                (if (stop =? n)%Z then tool s else Matrix44_identity))
     else Raise IndexError) /\
  length (links s') = length (links s) /\
  (forall i : nat, (start <= Z.of_nat i < Z.min stop (Z.of_nat (length q)))%Z ->
     nth_error (links s') i
     = option_map (fun l => move l (nth i q 0) ignore_locks setpoint) (nth_error (links s) i)) /\
  (forall i : nat, ~ (start <= Z.of_nat i < Z.min stop (Z.of_nat (length q)))%Z ->
     nth_error (links s') i = nth_error (links s) i).
Proof.
  intros n start stop s' covered.
  pose proof (fkine_start_nonneg start_index) as Hs.
  pose proof (fkine_end_le n end_index) as He.
  change (0 <= start)%Z in Hs. change (stop <= n)%Z in He.
  split.
  { unfold start, fkine_start. destruct (Z.ltb_spec start_index 0); lia. }
  split.
  { unfold stop, fkine_end. destruct end_index as [e|]; [|reflexivity].
    destruct (Z.gtb_spec e n); lia. }
  split; [exact Hs|]. split; [exact He|].
  assert (Hn : n = Z.of_nat (length (links s))) by reflexivity.
  assert (Hb1 : (0 < Z.to_nat (stop - start)
                 -> Z.to_nat start + Z.to_nat (stop - start) <= length (links s))%nat)
    by (clearbody start stop n; lia).
  destruct (fkine_loop_runs q ignore_locks setpoint (Z.to_nat (stop - start))
              (Z.to_nat start) (links s) pair_identity Hb1)
    as (ls' & Hrun & Hlen & Hin & Hout).
  assert (Hc : ((Z.to_nat (stop - start) =? 0)%nat
                || (Z.to_nat start + Z.to_nat (stop - start) <=? length q)%nat) = covered).
  { unfold covered. clearbody start stop n.
    destruct (Nat.eqb_spec (Z.to_nat (stop - start)) 0);
      destruct (Nat.leb_spec (Z.to_nat start + Z.to_nat (stop - start)) (length q));
      destruct (Z.leb_spec stop start);
      destruct (Z.leb_spec stop (Z.of_nat (length q))); cbn [orb]; try reflexivity; lia. }
  rewrite Hc in Hrun.
  assert (Hf : fkine s q start_index end_index include_base ignore_locks setpoint
             = (mkSerialManipulator ls' (base s) (default_base s) (tool s),
                if covered
                then Ok (mat_mul
                           (mat_mul (if include_base && (start =? 0)%Z then base s
                                     else Matrix44_identity)
                                    (pair_toMatrix
                                       (compose_links ls' (Z.to_nat start)
                                                      (Z.to_nat (stop - start))
                                                      pair_identity)))
                           (if (stop =? n)%Z then tool s else Matrix44_identity))
                else Raise IndexError)).
  { unfold fkine. fold n. fold start. fold stop. unfold range. rewrite Hrun.
    destruct covered; reflexivity. }
  subst s'. rewrite Hf. cbn [fst snd links].
  split; [reflexivity|]. split; [exact Hlen|]. split.
  - intros i Hi. apply Hin. clearbody start stop n. lia.
  - intros i Hi. apply Hout. clearbody start stop n. lia.
Qed.

Lemma fkine_span_witness :
  snd (fkine (manipulator (example_positioner 0 2)) [1] 0 (Some 1%Z) true false true)
  = Ok (mat_mul
          (mat_mul Matrix44_identity
             (pair_toMatrix
                (compose_links
                   (links (fst (fkine (manipulator (example_positioner 0 2)) [1] 0
                                      (Some 1%Z) true false true)))
                   0 1 pair_identity)))
          Matrix44_identity) /\
  nth_error (links (fst (fkine (manipulator (example_positioner 0 2)) [1] 0
                               (Some 1%Z) true false true))) 1
  = Some (prismatic_link axis_y 2 true).
Proof.
  destruct (fkine_span (manipulator (example_positioner 0 2)) [1] 0 (Some 1%Z)
                       true false true)
    as (_ & _ & _ & _ & Hm & _ & _ & Hout).
  split.
  - exact Hm.
  - apply (Hout 1%nat). simpl. lia.
Defined.

Lemma translation_toMatrix (x y z : R) :
  mat_mul (mat_mul Matrix44_identity
                   (pair_toMatrix (mkPair Quaternion_identity (mkVector3 x y z))))
          Matrix44_identity
  = translation x y z.
Proof.
  unfold translation, mat_mul, pair_toMatrix, toMatrix, Matrix44_identity, column; cbn.
  repeat (f_equal; try ring).
Qed.

Lemma example_fkine (x y c1 c2 : R) :
  Positioner_fkine (example_positioner x y) [c1; c2]
  = (example_positioner c1 y, Ok (translation c1 y 0)).
Proof.
  unfold Positioner_fkine, fkine, example_positioner.
  cbn -[pair_mul pair_toMatrix mat_mul Rmult Rplus move prismatic_link].
  change (PosDef.Pos.to_nat 2) with 2%nat.
  cbn [seq fkine_loop nth_error list_set].
  rewrite move_prismatic_free, move_prismatic_locked.
  unfold quaterionVectorPair, pair_identity. cbn [quaternion vector prismatic_link].
  rewrite !pair_mul_translations.
  replace (v3add _ _) with (mkVector3 c1 y 0)
    by (unfold v3add, v3scale, Vector3_zero, axis_x, axis_y; cbn; f_equal; ring).
  rewrite translation_toMatrix. reflexivity.
Qed.

(** ** Trajectories *)

Lemma cubic_polynomial_trajectory_eq (p0 p1 : R) (step : nat) :
  (1 <= step)%nat ->
  cubic_polynomial_trajectory p0 p1 step =
    Ok (map (polyval (cubic_coefficients p0 p1 (INR step))) (linspace 0 (INR step) step)).
Proof.
  intros Hstep.
  assert (Hs : INR step <> 0) by (apply not_0_INR; lia).
  unfold cubic_polynomial_trajectory, linalg_inv, cubic_coefficients.
  set (tf := INR step) in *.
  match goal with
  | |- context [Req_dec_T ?d 0] => assert (Hd : d = tf * tf * tf * tf) by (cbn; ring)
  end.
  rewrite Hd.
  destruct (Req_dec_T _ 0) as [E|E].
  - exfalso. repeat (apply Rmult_integral in E; destruct E as [E|E]; [|tauto]). tauto.
  - f_equal. f_equal. f_equal. cbn.
    repeat (f_equal; [field; exact Hs|]). f_equal. field. exact Hs.
Qed.

Lemma polyval_cubic (a3 a2 a1 a0 x : R) :
  polyval [a3; a2; a1; a0] x = a3 * x * x * x + a2 * x * x + a1 * x + a0.
Proof. unfold polyval; simpl. ring. Qed.

Lemma polyval_cubic_derivative (a3 a2 a1 a0 x : R) :
  derivable_pt_lim (polyval [a3; a2; a1; a0]) x (3 * a3 * x * x + 2 * a2 * x + a1).
Proof.
  set (g := ((((fct_cte 0 * id + fct_cte a3) * id + fct_cte a2) * id + fct_cte a1) * id
             + fct_cte a0)%F).
  eassert (H : derivable_pt_lim g x _).
  { unfold g.
    repeat first [ apply derivable_pt_lim_plus | apply derivable_pt_lim_mult
                 | apply derivable_pt_lim_id | apply derivable_pt_lim_const ]. }
  match type of H with
  | derivable_pt_lim _ _ ?l =>
      replace (3 * a3 * x * x + 2 * a2 * x + a1) with l
        by (unfold plus_fct, mult_fct, fct_cte, id; ring)
  end.
  exact H.
Qed.

Lemma cubic_boundary (p0 p1 tf : R) :
  tf <> 0 ->
  let p := polyval (cubic_coefficients p0 p1 tf) in
  p 0 = p0 /\ p tf = p1 /\ derivable_pt_lim p 0 0 /\ derivable_pt_lim p tf 0.
Proof.
  intros Htf p. unfold p, cubic_coefficients.
  set (a3 := -2 * (p1 - p0) / (tf * tf * tf)).
  set (a2 := 3 * (p1 - p0) / (tf * tf)).
  pose proof (polyval_cubic_derivative a3 a2 0 p0 0) as D0.
  pose proof (polyval_cubic_derivative a3 a2 0 p0 tf) as D1.
  replace (3 * a3 * 0 * 0 + 2 * a2 * 0 + 0) with 0 in D0 by ring.
  replace (3 * a3 * tf * tf + 2 * a2 * tf + 0) with 0 in D1
    by (unfold a3, a2; field; exact Htf).
  split; [|split; [|split]]; try assumption; rewrite polyval_cubic; unfold a3, a2.
  - ring.
  - field. exact Htf.
Qed.

Lemma joint_space_trajectory_loop_spec (start_pose stop_pose : list R) (step : nat) :
  (1 <= step)%nat -> (length start_pose <= length stop_pose)%nat ->
  forall (k a : nat) (traj : Matrix),
    (a + k <= length start_pose)%nat ->
    length traj = step ->
    Forall (fun row => length row = length start_pose) traj ->
    exists traj',
      joint_space_trajectory_loop (seq a k) start_pose stop_pose step traj = Ok traj' /\
      length traj' = step /\
      Forall (fun row => length row = length start_pose) traj' /\
      forall r i, (r < step)%nat ->
        nth i (nth r traj' []) 0
        = if ((a <=? i) && (i <? a + k))%nat
          then nth r (trajectory_column start_pose stop_pose step i) 0
          else nth i (nth r traj []) 0.
Proof.
  intros Hstep Hstop. induction k as [|k IH]; intros a traj Hk Hrows Hw.
  - exists traj. simpl. repeat split; auto. intros r i _.
    destruct (a <=? i)%nat eqn:E1; simpl; [|reflexivity].
    destruct (Nat.ltb_spec i (a + 0)); [|reflexivity].
    apply Nat.leb_le in E1. lia.
  - simpl.
    destruct (nth_error start_pose a) as [p0|] eqn:E0;
      [| apply nth_error_None in E0; lia].
    destruct (nth_error stop_pose a) as [p1|] eqn:E1;
      [| apply nth_error_None in E1; lia].
    rewrite (cubic_polynomial_trajectory_eq p0 p1 step Hstep).
    apply nth_error_nth with (d := 0) in E0. apply nth_error_nth with (d := 0) in E1.
    rewrite <- E0, <- E1. fold (trajectory_column start_pose stop_pose step a).
    assert (Hcol : length (trajectory_column start_pose stop_pose step a) = length traj).
    { unfold trajectory_column. rewrite length_map, linspace_length. now symmetry. }
    destruct (IH (S a) (set_column a (trajectory_column start_pose stop_pose step a) traj))
      as (traj' & Hrun & Hlen & Hw' & Hent).
    { lia. }
    { rewrite set_column_length; assumption. }
    { apply set_column_widths. exact Hw. }
    exists traj'. split; [exact Hrun|]. split; [exact Hlen|]. split; [exact Hw'|].
    intros r i Hr. rewrite (Hent r i Hr).
    destruct (Nat.eq_dec i a) as [->|Hne].
    + replace ((S a <=? a) && (a <? S a + k))%nat with false
        by (symmetry; apply andb_false_iff; left; apply Nat.leb_gt; lia).
      replace ((a <=? a) && (a <? a + S k))%nat with true
        by (symmetry; apply andb_true_iff; split; [apply Nat.leb_le | apply Nat.ltb_lt]; lia).
      rewrite set_column_row by (try assumption; lia).
      apply nth_list_set_eq.
      rewrite Forall_forall in Hw. rewrite (Hw (nth r traj [])).
      * lia.
      * apply nth_In. lia.
    + replace ((a <=? i) && (i <? a + S k))%nat with ((S a <=? i) && (i <? S a + k))%nat.
      * destruct ((S a <=? i) && (i <? S a + k))%nat; [reflexivity|].
        rewrite set_column_row by (try assumption; lia).
        apply nth_list_set_neq. exact Hne.
      * destruct (Nat.leb_spec (S a) i), (Nat.leb_spec a i),
          (Nat.ltb_spec i (S a + k)), (Nat.ltb_spec i (a + S k)); simpl; try reflexivity; lia.
Qed.

Lemma trajectory_column_bounds (start_pose stop_pose : list R) (step i : nat) :
  (2 <= step)%nat ->
  nth 0 (trajectory_column start_pose stop_pose step i) 0 = nth i start_pose 0 /\
  nth (step - 1) (trajectory_column start_pose stop_pose step i) 0 = nth i stop_pose 0.
Proof.
  intros Hstep. unfold trajectory_column.
  set (p := polyval _).
  assert (Htf : INR step <> 0) by (apply not_0_INR; lia).
  destruct (cubic_boundary (nth i start_pose 0) (nth i stop_pose 0) (INR step) Htf)
    as (H0 & H1 & _). fold p in H0, H1.
  split.
  - rewrite (nth_indep _ 0 (p 0)) by (rewrite length_map, linspace_length; lia).
    rewrite map_nth, linspace_first by lia. exact H0.
  - rewrite (nth_indep _ 0 (p 0)) by (rewrite length_map, linspace_length; lia).
    rewrite map_nth, linspace_last by lia. exact H1.
Qed.

(** C6: for start and stop configurations of equal length and at least two
    steps, [joint_space_trajectory] returns an array with [step] rows and
    one column per degree of freedom; its first row is the start
    configuration, its last row the stop configuration, and each column
    samples a cubic polynomial whose derivative is zero at both ends of
    the time interval, 0 and [step]. *)
Theorem joint_space_trajectory_spec (start_pose stop_pose : list R) (step : nat) :
  length start_pose = length stop_pose -> (2 <= step)%nat ->
  exists trajectory,
    joint_space_trajectory start_pose stop_pose step = Ok trajectory /\
    length trajectory = step /\
    Forall (fun row => length row = length start_pose) trajectory /\
    nth_error trajectory 0 = Some start_pose /\
    nth_error trajectory (step - 1) = Some stop_pose /\
    forall i, (i < length start_pose)%nat ->
      exists a3 a2 a1 a0,
        column i trajectory = map (polyval [a3; a2; a1; a0]) (linspace 0 (INR step) step) /\
        derivable_pt_lim (polyval [a3; a2; a1; a0]) 0 0 /\
        derivable_pt_lim (polyval [a3; a2; a1; a0]) (INR step) 0.
Proof.
  intros Hlen Hstep.
  destruct (zeros_shape step (length start_pose)) as [Hz1 Hz2].
  destruct (joint_space_trajectory_loop_spec start_pose stop_pose step
              ltac:(lia) ltac:(lia) (length start_pose) 0 (zeros step (length start_pose))
              ltac:(lia) Hz1 Hz2)
    as (traj & Hrun & Hrows & Hw & Hent).
  assert (Hin : forall r i, (r < step)%nat -> (i < length start_pose)%nat ->
            nth i (nth r traj []) 0 = nth r (trajectory_column start_pose stop_pose step i) 0).
  { intros r i Hr Hi. rewrite (Hent r i Hr).
    destruct (Nat.ltb_spec i (0 + length start_pose)); [reflexivity | lia]. }
  assert (Hrow : forall r, (r < step)%nat -> length (nth r traj []) = length start_pose).
  { intros r Hr. rewrite Forall_forall in Hw. apply Hw. apply nth_In. lia. }
  exists traj. split; [exact Hrun|]. split; [exact Hrows|]. split; [exact Hw|].
  split; [|split].
  - rewrite (nth_error_nth' traj []) by lia. f_equal.
    apply nth_ext with (d := 0) (d' := 0); [apply Hrow; lia|].
    intros i Hi. rewrite Hrow in Hi by lia. rewrite Hin by lia.
    apply (trajectory_column_bounds start_pose stop_pose step i Hstep).
  - rewrite (nth_error_nth' traj []) by lia. f_equal.
    apply nth_ext with (d := 0) (d' := 0); [rewrite Hrow; lia|].
    intros i Hi. rewrite Hrow in Hi by lia. rewrite Hin by lia.
    apply (trajectory_column_bounds start_pose stop_pose step i Hstep).
  - intros i Hi.
    assert (Htf : INR step <> 0) by (apply not_0_INR; lia).
    destruct (cubic_boundary (nth i start_pose 0) (nth i stop_pose 0) (INR step) Htf)
      as (_ & _ & D0 & D1).
    unfold cubic_coefficients in D0, D1.
    do 4 eexists. split; [|split; [exact D0 | exact D1]].
    fold (cubic_coefficients (nth i start_pose 0) (nth i stop_pose 0) (INR step)).
    fold (trajectory_column start_pose stop_pose step i).
    apply nth_ext with (d := 0) (d' := 0).
    + unfold column, trajectory_column.
      rewrite !length_map, linspace_length. exact Hrows.
    + intros r Hr. unfold column in *. rewrite length_map in Hr.
      rewrite <- Hin by lia.
      rewrite (nth_indep _ 0 (nth i [] 0)) by (rewrite length_map; lia).
      apply (map_nth (fun row => nth i row 0)).
Qed.

Lemma joint_space_trajectory_spec_witness :
  length [0] = length [10] /\ (2 <= 5)%nat /\
  exists trajectory,
    joint_space_trajectory [0] [10] 5 = Ok trajectory /\
    length trajectory = 5%nat /\
    nth_error trajectory 0 = Some [0] /\
    nth_error trajectory 4 = Some [10].
Proof.
  assert (H5 : (2 <= 5)%nat) by lia.
  split; [reflexivity|]. split; [exact H5|].
  destruct (joint_space_trajectory_spec [0] [10] 5 eq_refl H5)
    as (trajectory & Hrun & Hrows & _ & Hfirst & Hlast & _).
  exists trajectory. repeat split; assumption.
Defined.

(** ** Sequences *)

Lemma Sequence_init_shape (frameForTime : Z -> Z -> Z -> Z -> Z)
    (start stop : list R) (dur : Z) (n : nat) :
  length start = length stop -> (1 <= n)%nat ->
  exists s,
    Sequence_init frameForTime start stop dur n = Ok s /\
    endFrame (timeline s) = (Z.of_nat n - 1)%Z /\
    length (trajectory s) = n /\
    step s = n /\
    currentTime (timeline s) = dur /\
    isRunning s = false.
Proof.
  intros Hlen Hn.
  destruct (zeros_shape n (length start)) as [Hz1 Hz2].
  destruct (joint_space_trajectory_loop_spec start stop n Hn ltac:(lia)
              (length start) 0 (zeros n (length start)) ltac:(lia) Hz1 Hz2)
    as (traj & Hrun & Hrows & _).
  unfold Sequence_init, joint_space_trajectory. rewrite Hrun.
  eexists. split; [reflexivity|]. simpl. rewrite Z.leb_refl.
  repeat split; try reflexivity. exact Hrows.
Qed.

(** C9: for a time line whose frame at the end of its duration is its end
    frame, set up as by the constructor (end frame [step - 1], a
    trajectory of [step] rows), when [stop] is called while the current
    frame is not the final one, the time line is moved to its duration,
    the frame callback is run once, on the last row of the trajectory,
    [frame_changed] is emitted once and [isRunning] is false afterwards. *)
Theorem stop_snaps_to_final_frame
    (frameForTime : Z -> Z -> Z -> Z -> Z) (World : Type)
    (frames : list R -> World -> World) (s : Sequence) (w : World) :
  (forall d a b, frameForTime d a b d = b) ->
  endFrame (timeline s) = (Z.of_nat (step s) - 1)%Z ->
  length (trajectory s) = step s ->
  (1 <= step s)%nat ->
  (currentTime (timeline s) <= duration (timeline s))%Z ->
  currentFrame frameForTime (timeline s) <> endFrame (timeline s) ->
  exists last s',
    Sequence_stop frameForTime World frames (s, w) = Ok (s', frames last w) /\
    nth_error (trajectory s) (step s - 1) = Some last /\
    currentTime (timeline s') = duration (timeline s) /\
    currentFrame frameForTime (timeline s') = endFrame (timeline s) /\
    isRunning s' = false /\
    trajectory s' = trajectory s /\
    frame_changed s' = S (frame_changed s).
Proof.
  intros Hend Hrange Hrows Hstep Htime Hframe.
  destruct s as [tl traj n fc]; simpl in *.
  assert (Hlt : (currentTime tl <? duration tl)%Z = true).
  { apply Z.ltb_lt. destruct (Z.eq_dec (currentTime tl) (duration tl)) as [E|E]; [|lia].
    exfalso. apply Hframe. unfold currentFrame. rewrite E. apply Hend. }
  destruct (nth_error traj (n - 1)) as [last|] eqn:Elast;
    [| apply nth_error_None in Elast; lia].
  exists last.
  unfold Sequence_stop; simpl. rewrite Hlt.
  unfold QTimeLine_setCurrentTime. rewrite Z.leb_refl.
  unfold currentFrame at 2 3; simpl. rewrite Hend.
  destruct (Z.eqb_spec (currentFrame frameForTime tl) (endFrame tl)) as [E|_];
    [contradiction|].
  simpl. unfold array_row. rewrite Hrange.
  assert (Hnn : (Z.of_nat n - 1 <? 0)%Z = false) by (apply Z.ltb_ge; lia).
  rewrite Hnn. cbv zeta. rewrite Hnn.
  replace (Z.to_nat (Z.of_nat n - 1)) with (n - 1)%nat by lia.
  rewrite Elast. simpl.
  eexists. split; [reflexivity|]. simpl.
  repeat split; try reflexivity.
  unfold currentFrame; simpl. rewrite Hend. congruence.
Qed.

Lemma stop_snaps_to_final_frame_witness :
  (forall d a b, linear_frameForTime d a b d = b) /\
  endFrame (timeline sequence_example) = (Z.of_nat (step sequence_example) - 1)%Z /\
  length (trajectory sequence_example) = step sequence_example /\
  (1 <= step sequence_example)%nat /\
  (currentTime (timeline sequence_example) <= duration (timeline sequence_example))%Z /\
  currentFrame linear_frameForTime (timeline sequence_example)
    <> endFrame (timeline sequence_example) /\
  exists s',
    Sequence_stop linear_frameForTime (list R) (fun row _ => row) (sequence_example, [0])
    = Ok (s', [10]) /\ isRunning s' = false.
Proof.
  assert (Hend : forall d a b, linear_frameForTime d a b d = b).
  { intros d a b. unfold linear_frameForTime. rewrite Z.leb_refl. reflexivity. }
  assert (Hstep : (1 <= step sequence_example)%nat) by (simpl; lia).
  assert (Htime : (currentTime (timeline sequence_example)
                   <= duration (timeline sequence_example))%Z) by (simpl; lia).
  assert (Hframe : currentFrame linear_frameForTime (timeline sequence_example)
                   <> endFrame (timeline sequence_example)) by (vm_compute; discriminate).
  repeat (split; [first [assumption | reflexivity]|]).
  destruct (stop_snaps_to_final_frame linear_frameForTime (list R) (fun row _ => row)
              sequence_example [0] Hend eq_refl eq_refl Hstep Htime Hframe)
    as (last & s' & Hstop & Hlast & _ & _ & Hrun & _).
  exists s'. simpl in Hlast. injection Hlast as <-. split; assumption.
Defined.

(** ** Numeric inverse kinematics *)

Lemma pose_error_translation (tx ty tz ox oy oz a b c : R) :
  pose_error [tx; ty; tz; ox; oy; oz] [0; 0; 0; 0; 0; 1]
             (mat_mul (translation a b c) Matrix44_identity)
  = (tx - a) * (tx - a) + (ty - b) * (ty - b) + (tz - c) * (tz - c)
    + ox * ox + oy * oy + (oz - 1) * (oz - 1).
Proof.
  unfold pose_error, translation, mat_mul, Matrix44_identity, column, mat_vec; cbn. ring.
Qed.

(** C1, where the code departs from it: when the cost at the current
    configuration is already below [tol * tol], the first call of [opt],
    made before the [try] block, raises StopOptimizingException and the
    solver passes it on to its caller, whatever the search would do; the
    [return q0] that follows is never reached. *)
Theorem numeric_inverse_kinematics_already_there
    (Robot : Type) (ri_configuration : Robot -> list R) (ri_locked : Robot -> list bool)
    (ri_fkine : Robot -> list R -> Robot * result Matrix44)
    (ri_tool_link : Robot -> Matrix44) (dual_annealing : list (R * R) -> list R -> Search)
    (r r' : Robot) (m : Matrix44) (target_pose current_pose : list R)
    (bounds : list (R * R)) (tol : R) (q0 : list R) (b0 : list (R * R)) :
  mask_select (ri_configuration r) (map negb (ri_locked r)) = Ok q0 ->
  mask_select bounds (map negb (ri_locked r)) = Ok b0 ->
  ri_fkine r (ri_configuration r) = (r', Ok m) ->
  pose_error target_pose current_pose (mat_mul m (ri_tool_link r')) < tol * tol ->
  numeric_inverse_kinematics Robot ri_configuration ri_locked ri_fkine ri_tool_link
                             dual_annealing r target_pose current_pose bounds tol
  = (Raise StopOptimizingException, r').
Proof.
  intros Hq0 Hb0 Hfk Herr.
  unfold numeric_inverse_kinematics. rewrite Hq0, Hb0.
  unfold opt; simpl. rewrite (mask_select_assign _ _ _ Hq0), Hfk.
  destruct (Rlt_dec _ _) as [_|Hn]; [reflexivity | contradiction].
Qed.

Lemma numeric_inverse_kinematics_already_there_witness :
  mask_select (Positioner_configuration (example_positioner 0 2))
              (map negb (Positioner_locked (example_positioner 0 2))) = Ok [0] /\
  mask_select example_bounds (map negb (Positioner_locked (example_positioner 0 2)))
  = Ok [(-10, 10)] /\
  Positioner_fkine (example_positioner 0 2)
                   (Positioner_configuration (example_positioner 0 2))
  = (example_positioner 0 2, Ok (translation 0 2 0)) /\
  pose_error [0; 2; 0; 0; 0; 1] [0; 0; 0; 0; 0; 1]
             (mat_mul (translation 0 2 0) (tool_link (example_positioner 0 2)))
  < 1 / 10 * (1 / 10) /\
  example_solve (search_once 0) [0; 2; 0; 0; 0; 1]
  = (Raise StopOptimizingException, example_positioner 0 2).
Proof.
  assert (Hfk : Positioner_fkine (example_positioner 0 2)
                  (Positioner_configuration (example_positioner 0 2))
                = (example_positioner 0 2, Ok (translation 0 2 0)))
    by exact (example_fkine 0 2 0 2).
  assert (Herr : pose_error [0; 2; 0; 0; 0; 1] [0; 0; 0; 0; 0; 1]
                   (mat_mul (translation 0 2 0) (tool_link (example_positioner 0 2)))
                 < 1 / 10 * (1 / 10)).
  { change (tool_link (example_positioner 0 2)) with Matrix44_identity.
    rewrite pose_error_translation. lra. }
  split; [reflexivity|]. split; [reflexivity|]. split; [exact Hfk|]. split; [exact Herr|].
  unfold example_solve.
  exact (numeric_inverse_kinematics_already_there Positioner Positioner_configuration
           Positioner_locked Positioner_fkine tool_link (search_once 0)
           (example_positioner 0 2) (example_positioner 0 2) (translation 0 2 0)
           [0; 2; 0; 0; 0; 1] [0; 0; 0; 0; 0; 1] example_bounds (1 / 10)
           [0] [(-10, 10)] eq_refl eq_refl Hfk Herr).
Defined.

Lemma example_opt (best : option R) (x c tx ty : R) :
  opt Positioner Positioner_fkine tool_link [tx; ty; 0; 0; 0; 1] [0; 0; 0; 0; 0; 1]
      [true; false] (1 / 10 * (1 / 10)) [c]
      (mkOptState Positioner (example_positioner x 2) [x; 2] best)
  = (if Rlt_dec ((tx - c) * (tx - c) + (ty - 2) * (ty - 2)) (1 / 10 * (1 / 10))
     then Raise StopOptimizingException
     else Ok ((tx - c) * (tx - c) + (ty - 2) * (ty - 2)),
     mkOptState Positioner (example_positioner c 2) [c; 2]
                (if lt_best ((tx - c) * (tx - c) + (ty - 2) * (ty - 2)) best
                 then Some ((tx - c) * (tx - c) + (ty - 2) * (ty - 2)) else best)).
Proof.
  unfold opt. cbn [mask_assign length filter Nat.eqb negb mask_fill conf ri].
  rewrite example_fkine.
  change (tool_link (example_positioner c 2)) with Matrix44_identity.
  rewrite pose_error_translation.
  replace ((tx - c) * (tx - c) + (ty - 2) * (ty - 2) + (0 - 0) * (0 - 0)
           + 0 * 0 + 0 * 0 + (1 - 1) * (1 - 1))
    with ((tx - c) * (tx - c) + (ty - 2) * (ty - 2)) by ring.
  destruct (Rlt_dec _ _); reflexivity.
Qed.

Ltac start_example_solve :=
  unfold example_solve, numeric_inverse_kinematics, search_once;
  cbn [Positioner_configuration Positioner_locked example_positioner manipulator links
       configuration map offset locked prismatic_link negb mask_select example_bounds];
  rewrite example_opt.

Ltac not_below_tolerance :=
  match goal with
  | |- context [Rlt_dec ?a ?b] => destruct (Rlt_dec a b) as [?E|_]; [lra|]
  end.

(** C2, where the code departs from it: on a positioner with a free and a
    locked joint at the configuration [0; 2], a search that ends without
    reaching the tolerance (the target asks 3 of the locked joint, which
    stays at 2) returns [r.x], the free variable alone ([5]), while the
    same search stopped by the tolerance (the target asks 2 of the locked
    joint) returns the whole configuration ([5; 2]). *)
Theorem numeric_inverse_kinematics_forms_differ :
  Positioner_configuration (example_positioner 0 2) = [0; 2] /\
  Positioner_locked (example_positioner 0 2) = [false; true] /\
  fst (example_solve (search_once 5) [5; 3; 0; 0; 0; 1]) = Ok [5] /\
  fst (example_solve (search_once 5) [5; 2; 0; 0; 0; 1]) = Ok [5; 2].
Proof.
  split; [reflexivity|]. split; [reflexivity|]. split.
  - start_example_solve. do 2 not_below_tolerance.
    cbn [run_search ri conf]. rewrite example_opt. not_below_tolerance.
    reflexivity.
  - start_example_solve. do 2 not_below_tolerance.
    cbn [run_search ri conf]. rewrite example_opt.
    destruct (Rlt_dec _ _) as [_|E]; [reflexivity | lra].
Qed.

(** * Further properties *)

(** ** misc.py *)

(** X1: for [min_value <= max_value], [clamp] returns the value of the
    range nearest to [value]: it lies in the range, no value [x] of the
    range is nearer to [value], and a value of the range is returned
    unchanged. *)
Theorem clamp_in_range (value min_value max_value x : R) :
  min_value <= max_value -> min_value <= x <= max_value ->
  min_value <= clamp value min_value max_value <= max_value /\
  Rabs (clamp value min_value max_value - value) <= Rabs (x - value) /\
  clamp x min_value max_value = x.
Proof.
  intros H Hx. unfold clamp, Rmax, Rmin.
  destruct (Rle_dec value max_value); destruct (Rle_dec _ min_value);
    destruct (Rle_dec x max_value); try lra;
    destruct (Rle_dec x min_value); unfold Rabs;
    repeat destruct (Rcase_abs _); repeat split; lra.
Qed.

Lemma clamp_in_range_witness :
  0 <= 1 /\ 0 <= 1 / 2 <= 1 /\
  0 <= clamp 7 0 1 <= 1 /\
  Rabs (clamp 7 0 1 - 7) <= Rabs (1 / 2 - 7) /\
  clamp (1 / 2) 0 1 = 1 / 2.
Proof.
  assert (H : 0 <= 1) by lra. assert (Hx : 0 <= 1 / 2 <= 1) by lra.
  split; [exact H|]. split; [exact Hx|].
  exact (clamp_in_range 7 0 1 (1 / 2) H Hx).
Defined.

(** X2: [map_range] on two ranges that are not reduced to a point sends the
    ends of the first range to the ends of the second, and mapping back
    with the ranges swapped returns the value. *)
Theorem map_range_round_trip (old_min old_max new_min new_max value : R) :
  old_min <> old_max -> new_min <> new_max ->
  exists mapped,
    map_range old_min old_max new_min new_max value = Ok mapped /\
    map_range new_min new_max old_min old_max mapped = Ok value /\
    map_range old_min old_max new_min new_max old_min = Ok new_min /\
    map_range old_min old_max new_min new_max old_max = Ok new_max.
Proof.
  intros Ho Hn. unfold map_range.
  destruct (Req_dec_T (old_max - old_min) 0) as [E|Eo]; [lra|].
  destruct (Req_dec_T (new_max - new_min) 0) as [E|En]; [lra|].
  eexists. split; [reflexivity|].
  repeat split; f_equal; field; repeat split; lra.
Qed.

Lemma map_range_round_trip_witness :
  0 <> 10 /\ 100 <> 200 /\
  exists mapped,
    map_range 0 10 100 200 5 = Ok mapped /\
    map_range 100 200 0 10 mapped = Ok 5 /\
    map_range 0 10 100 200 0 = Ok 100 /\
    map_range 0 10 100 200 10 = Ok 200.
Proof.
  assert (H1 : 0 <> 10) by lra. assert (H2 : 100 <> 200) by lra.
  split; [exact H1|]. split; [exact H2|].
  exact (map_range_round_trip 0 10 100 200 5 H1 H2).
Defined.

Lemma math_trunc_bounds (v : R) :
  (0 <= v -> 0 <= IZR (math_trunc v) <= v /\ v - IZR (math_trunc v) < 1) /\
  (v <= 0 -> v <= IZR (math_trunc v) <= 0 /\ IZR (math_trunc v) - v < 1).
Proof.
  unfold math_trunc. split; intros Hv.
  - destruct (Rle_dec 0 v) as [_|N]; [|lra].
    destruct (archimed v) as [H1 H2]. rewrite minus_IZR.
    assert (Hz : (0 < up v)%Z) by (apply lt_IZR; lra).
    assert (1 <= IZR (up v)) by (apply IZR_le; lia). lra.
  - destruct (Rle_dec 0 v) as [P|N].
    + assert (v = 0) by lra. subst v.
      destruct (archimed 0) as [H1 H2]. rewrite minus_IZR.
      assert (Hz : (0 < up 0)%Z) by (apply lt_IZR; lra).
      assert (1 <= IZR (up 0)) by (apply IZR_le; lia). lra.
    + destruct (archimed (- v)) as [H1 H2]. rewrite opp_IZR, minus_IZR.
      assert (Hz : (0 < up (- v))%Z) by (apply lt_IZR; lra).
      assert (1 <= IZR (up (- v))) by (apply IZR_le; lia). lra.
Qed.

(** X3: [trunc] with [decimals = 0], the default, cuts towards zero: the
    result is no larger in absolute value than the value, differs from it
    by less than 1 and is a whole number. *)
Theorem trunc_towards_zero (value : R) :
  Rabs (trunc value 0) <= Rabs value /\
  Rabs (value - trunc value 0) < 1 /\
  exists k : Z, trunc value 0 = IZR k.
Proof.
  unfold trunc. change (powerRZ 10 0) with 1.
  replace (value * 1) with value by ring.
  set (k := math_trunc value).
  assert (Hk := math_trunc_bounds value). fold k in Hk.
  destruct Hk as [Hpos Hneg].
  replace (IZR k / 1) with (IZR k) by field.
  split; [|split].
  - destruct (Rle_dec 0 value) as [P|N].
    + destruct (Hpos P) as [[Ha Hb] _]. rewrite !Rabs_pos_eq; lra.
    + assert (H : value <= 0) by lra. destruct (Hneg H) as [[Ha Hb] _].
      rewrite !Rabs_left1; lra.
  - destruct (Rle_dec 0 value) as [P|N].
    + destruct (Hpos P) as [[Ha Hb] Hc]. rewrite Rabs_pos_eq; lra.
    + assert (H : value <= 0) by lra. destruct (Hneg H) as [[Ha Hb] Hc].
      rewrite Rabs_left1; lra.
  - exists k. reflexivity.
Qed.

Lemma is_close_sym (a : list R) : forall (b : list R) (tol : R),
  is_close a b tol = is_close b a tol.
Proof.
  induction a as [|u a IH]; intros [|v b] tol; simpl; try reflexivity.
  rewrite (IH b tol). rewrite (Rabs_minus_sym u v). reflexivity.
Qed.

(** X4: on arrays of the same shape closeness adds up: arrays within
    [t1] and within [t2] of a middle array are within [t1 + t2] of each
    other, and [is_close] does not depend on the order of its two
    arrays. *)
Theorem is_close_triangle (a : list R) : forall (b c : list R) (t1 t2 : R),
  length a = length b -> length b = length c ->
  is_close a b t1 = true -> is_close b c t2 = true ->
  is_close a c (t1 + t2) = true /\ is_close b a t1 = true.
Proof.
  intros b c t1 t2 _ _ H1 H2. split; [|now rewrite is_close_sym].
  revert b c H1 H2.
  induction a as [|u a IH]; intros [|v b] [|w c] H1 H2; simpl in *; try discriminate;
    try reflexivity.
  apply andb_true_iff in H1. destruct H1 as [Hu H1].
  apply andb_true_iff in H2. destruct H2 as [Hv H2].
  rewrite (IH b c H1 H2), andb_true_r.
  destruct (Rlt_dec (Rabs (u - v)) t1) as [L1|]; [|discriminate].
  destruct (Rlt_dec (Rabs (v - w)) t2) as [L2|]; [|discriminate].
  destruct (Rlt_dec (Rabs (u - w)) (t1 + t2)) as [|N]; [reflexivity|].
  exfalso. apply N.
  replace (u - w) with ((u - v) + (v - w)) by ring.
  eapply Rle_lt_trans; [apply Rabs_triang | lra].
Qed.

Lemma is_close_triangle_witness :
  length [1; 4] = length [1.5; 4] /\ length [1.5; 4] = length [2; 4.5] /\
  is_close [1; 4] [1.5; 4] 1 = true /\ is_close [1.5; 4] [2; 4.5] 1 = true /\
  is_close [1; 4] [2; 4.5] (1 + 1) = true /\ is_close [1.5; 4] [1; 4] 1 = true.
Proof.
  assert (H1 : is_close [1; 4] [1.5; 4] 1 = true).
  { simpl. repeat (destruct (Rlt_dec _ _) as [|N];
                   [|exfalso; apply N; unfold Rabs; destruct (Rcase_abs _); lra]).
    reflexivity. }
  assert (H2 : is_close [1.5; 4] [2; 4.5] 1 = true).
  { simpl. repeat (destruct (Rlt_dec _ _) as [|N];
                   [|exfalso; apply N; unfold Rabs; destruct (Rcase_abs _); lra]).
    reflexivity. }
  split; [reflexivity|]. split; [reflexivity|]. split; [exact H1|]. split; [exact H2|].
  exact (is_close_triangle [1; 4] [1.5; 4] [2; 4.5] 1 1 eq_refl eq_refl H1 H2).
Defined.

(** ** Quaternions, continued *)

Ltac quaternion_components :=
  cbv [m33_apply toMatrix qmul conjugate qneg v3dot v3add v3scale v3cross axis
       qw qx qy qz v3x v3y v3z m11 m12 m13 m21 m22 m23 m31 m32 m33].

Lemma sum_squares_nonneg (a b c d : R) : 0 <= a * a + b * b + c * c + d * d.
Proof. nra. Qed.

Lemma magnitude_square (q : Quaternion) :
  magnitude q * magnitude q = qx q * qx q + qy q * qy q + qz q * qz q + qw q * qw q.
Proof. unfold magnitude. apply sqrt_sqrt. apply sum_squares_nonneg. Qed.

Lemma v3length_square (a : Vector3) : v3length a * v3length a = v3dot a a.
Proof. unfold v3length. apply sqrt_sqrt. unfold v3dot. nra. Qed.

Lemma unit_example_magnitude : magnitude unit_example = 1.
Proof.
  unfold magnitude, unit_example. cbn [qw qx qy qz].
  replace (4 / 5 * (4 / 5) + 0 * 0 + 0 * 0 + 3 / 5 * (3 / 5)) with 1 by field.
  apply sqrt_1.
Qed.

Lemma axis_x_length : v3length axis_x = 1.
Proof.
  unfold v3length, v3dot, axis_x. cbn [v3x v3y v3z].
  replace (1 * 1 + 0 * 0 + 0 * 0) with 1 by ring. apply sqrt_1.
Qed.

(** X5: [normalize] of a quaternion of magnitude zero is the zero
    quaternion; of any other quaternion it is a unit quaternion. *)
Theorem normalize_magnitude (q : Quaternion) :
  if Req_dec_T (magnitude q) 0
  then normalize q = Quaternion_default
  else magnitude (normalize q) = 1.
Proof.
  unfold normalize. destruct (Req_dec_T (magnitude q) 0) as [E|H]; [reflexivity|].
  pose proof (magnitude_square q) as Hs.
  unfold magnitude at 1. cbn [qw qx qy qz].
  replace (qx q / magnitude q * (qx q / magnitude q)
           + qy q / magnitude q * (qy q / magnitude q)
           + qz q / magnitude q * (qz q / magnitude q)
           + qw q / magnitude q * (qw q / magnitude q))
    with ((qx q * qx q + qy q * qy q + qz q * qz q + qw q * qw q)
          / (magnitude q * magnitude q)) by (field; exact H).
  rewrite <- Hs.
  replace (magnitude q * magnitude q / (magnitude q * magnitude q)) with 1
    by (field; exact H).
  apply sqrt_1.
Qed.

Lemma qmul_magnitude (a b : Quaternion) :
  magnitude (qmul a b) = magnitude a * magnitude b.
Proof.
  unfold magnitude. rewrite <- sqrt_mult by apply sum_squares_nonneg.
  f_equal. destruct a, b. quaternion_components. ring.
Qed.

Lemma qmul_assoc (a b c : Quaternion) : qmul (qmul a b) c = qmul a (qmul b c).
Proof. destruct a, b, c. quaternion_components. f_equal; ring. Qed.

Lemma qmul_identity_r (q : Quaternion) : qmul q Quaternion_identity = q.
Proof.
  destruct q. unfold Quaternion_identity. quaternion_components. f_equal; ring.
Qed.

(** X6: the Hamilton product is associative, has the identity quaternion as
    its unit on both sides and multiplies magnitudes, so that the product
    of unit quaternions is a unit quaternion. *)
Theorem qmul_monoid (a b c : Quaternion) :
  qmul (qmul a b) c = qmul a (qmul b c) /\
  qmul Quaternion_identity a = a /\
  qmul a Quaternion_identity = a /\
  magnitude (qmul a b) = magnitude a * magnitude b.
Proof.
  split; [apply qmul_assoc|]. split; [apply qmul_identity_l|].
  split; [apply qmul_identity_r | apply qmul_magnitude].
Qed.

(** X7: [inverse] divides the conjugate by the magnitude, not by its
    square: the product of a quaternion with its [inverse], on either
    side, is its magnitude as a scalar quaternion (the identity only for a
    unit quaternion, zero for the zero quaternion). *)
Theorem qmul_inverse_scales (q : Quaternion) :
  qmul q (inverse q) = mkQuaternion (magnitude q) 0 0 0 /\
  qmul (inverse q) q = mkQuaternion (magnitude q) 0 0 0.
Proof.
  unfold inverse, normalize. rewrite magnitude_conjugate.
  pose proof (magnitude_square q) as Hs.
  destruct (Req_dec_T (magnitude q) 0) as [E|N].
  - rewrite E in *. destruct q as [w x y z]; cbn [qw qx qy qz] in Hs.
    assert (w = 0 /\ x = 0 /\ y = 0 /\ z = 0) as (-> & -> & -> & ->) by (repeat split; nra).
    unfold Quaternion_default. quaternion_components. split; f_equal; ring.
  - destruct q as [w x y z]; cbn [qw qx qy qz] in Hs.
    set (L := magnitude _) in *.
    quaternion_components.
    split; f_equal; try (field; exact N).
    + replace (w * (w / L) - (x * (- x / L) + y * (- y / L) + z * (- z / L)))
        with ((x * x + y * y + z * z + w * w) / L) by (field; exact N).
      rewrite <- Hs. field. exact N.
    + replace (w / L * w - (- x / L * x + - y / L * y + - z / L * z))
        with ((x * x + y * y + z * z + w * w) / L) by (field; exact N).
      rewrite <- Hs. field. exact N.
Qed.

Lemma fromAxisAngle_magnitude (ax : Vector3) (angle : R) :
  v3length ax <> 0 -> magnitude (fromAxisAngle ax angle) = 1.
Proof.
  intros H. unfold fromAxisAngle, v3normalized.
  destruct (Req_dec_T (v3length ax) 0) as [E|_]; [contradiction|].
  pose proof (v3length_square ax) as Hs. unfold v3dot in Hs.
  pose proof (sin2_cos2 (angle / 2)) as Ht. unfold Rsqr in Ht.
  unfold magnitude, v3scale. cbn [qw qx qy qz v3x v3y v3z].
  set (L := v3length ax) in *. set (s := sin (angle / 2)) in *.
  set (c := cos (angle / 2)) in *.
  replace (v3x ax * / L * s * (v3x ax * / L * s) + v3y ax * / L * s * (v3y ax * / L * s)
           + v3z ax * / L * s * (v3z ax * / L * s) + c * c)
    with ((v3x ax * v3x ax + v3y ax * v3y ax + v3z ax * v3z ax) / (L * L) * (s * s) + c * c)
    by (field; exact H).
  rewrite <- Hs. replace (L * L / (L * L)) with 1 by (field; exact H).
  rewrite Rmult_1_l, Ht. apply sqrt_1.
Qed.

Lemma v3length_scale (ax : Vector3) (k : R) :
  0 <= k -> v3length (v3scale ax k) = k * v3length ax.
Proof.
  intros Hk. unfold v3length, v3dot, v3scale. cbn [v3x v3y v3z].
  replace (v3x ax * k * (v3x ax * k) + v3y ax * k * (v3y ax * k) + v3z ax * k * (v3z ax * k))
    with (k * k * (v3x ax * v3x ax + v3y ax * v3y ax + v3z ax * v3z ax)) by ring.
  rewrite sqrt_mult by nra. rewrite sqrt_square by exact Hk. reflexivity.
Qed.

(** X8: for an axis that is not the zero vector, [fromAxisAngle] returns a
    unit quaternion, and the length of the axis does not matter: scaling
    the axis by a positive factor gives the same quaternion. *)
Theorem fromAxisAngle_unit (ax : Vector3) (angle k : R) :
  v3length ax <> 0 -> 0 < k ->
  magnitude (fromAxisAngle ax angle) = 1 /\
  fromAxisAngle (v3scale ax k) angle = fromAxisAngle ax angle.
Proof.
  intros H Hk. split; [now apply fromAxisAngle_magnitude|].
  unfold fromAxisAngle, v3normalized.
  rewrite (v3length_scale ax k) by lra.
  destruct (Req_dec_T (k * v3length ax) 0) as [E|_]; [nra|].
  destruct (Req_dec_T (v3length ax) 0) as [E|_]; [contradiction|].
  unfold v3scale. cbn [v3x v3y v3z]. f_equal; field; split; lra.
Qed.

Lemma fromAxisAngle_unit_witness :
  v3length axis_x <> 0 /\ 0 < 2 /\
  magnitude (fromAxisAngle axis_x 1) = 1 /\
  fromAxisAngle (v3scale axis_x 2) 1 = fromAxisAngle axis_x 1.
Proof.
  assert (H : v3length axis_x <> 0) by (rewrite axis_x_length; lra).
  assert (H2 : 0 < 2) by lra.
  split; [exact H|]. split; [exact H2|]. exact (fromAxisAngle_unit axis_x 1 2 H H2).
Defined.

(** X9: the matrix of a unit quaternion is a proper rotation matrix. *)
Theorem toMatrix_unit_rotation (q : Quaternion) :
  magnitude q = 1 -> is_rotation (toMatrix q) /\ toMatrix (qneg q) = toMatrix q.
Proof.
  intros H. split.
  - exact (toMatrix_rotation q H).
  - destruct q. quaternion_components. f_equal; ring.
Qed.

Lemma toMatrix_unit_rotation_witness :
  magnitude unit_example = 1 /\
  is_rotation (toMatrix unit_example) /\
  toMatrix (qneg unit_example) = toMatrix unit_example.
Proof.
  split; [exact unit_example_magnitude|].
  exact (toMatrix_unit_rotation unit_example unit_example_magnitude).
Defined.

Lemma rotate_unit (q : Quaternion) (v : Vector3) :
  magnitude q = 1 ->
  rotate q v
  = axis (qmul (qmul q (mkQuaternion 0 (v3x v) (v3y v) (v3z v))) (conjugate q)).
Proof. intros H. unfold rotate. now rewrite (inverse_unit q H). Qed.

Lemma rotate_apply (q : Quaternion) (v : Vector3) :
  magnitude q = 1 -> rotate q v = m33_apply (toMatrix q) v.
Proof.
  intros H. rewrite (rotate_unit q v H).
  pose proof (magnitude_sqr q H) as Hs.
  destruct q as [w x y z], v as [a b c]; cbn [qw qx qy qz] in Hs.
  quaternion_components.
  f_equal.
  - match goal with
    | |- ?l = ?r => replace l with (r + (x * x + y * y + z * z + w * w - 1) * a) by ring
    end.
    rewrite Hs. ring.
  - match goal with
    | |- ?l = ?r => replace l with (r + (x * x + y * y + z * z + w * w - 1) * b) by ring
    end.
    rewrite Hs. ring.
  - match goal with
    | |- ?l = ?r => replace l with (r + (x * x + y * y + z * z + w * w - 1) * c) by ring
    end.
    rewrite Hs. ring.
Qed.

Lemma rotate_dot (q : Quaternion) (a b : Vector3) :
  magnitude q = 1 -> v3dot (rotate q a) (rotate q b) = v3dot a b.
Proof.
  intros H. rewrite !rotate_unit by exact H.
  pose proof (magnitude_sqr q H) as Hs.
  destruct q as [w x y z], a as [a1 a2 a3], b as [b1 b2 b3]; cbn [qw qx qy qz] in Hs.
  quaternion_components.
  match goal with
  | |- ?l = ?r =>
      replace l with ((x * x + y * y + z * z + w * w) * (x * x + y * y + z * z + w * w) * r)
        by ring
  end.
  rewrite Hs. ring.
Qed.

(** X10: [rotate] by a unit quaternion is the product with its matrix, and
    it keeps dot products and lengths. *)
Theorem rotate_isometry (q : Quaternion) (u v : Vector3) :
  magnitude q = 1 ->
  rotate q v = m33_apply (toMatrix q) v /\
  v3dot (rotate q u) (rotate q v) = v3dot u v /\
  v3length (rotate q v) = v3length v.
Proof.
  intros H. split; [now apply rotate_apply|].
  split; [now apply rotate_dot|].
  unfold v3length. now rewrite rotate_dot.
Qed.

Lemma rotate_isometry_witness :
  magnitude unit_example = 1 /\
  rotate unit_example axis_y = m33_apply (toMatrix unit_example) axis_y /\
  v3dot (rotate unit_example axis_x) (rotate unit_example axis_y) = v3dot axis_x axis_y /\
  v3length (rotate unit_example axis_y) = v3length axis_y.
Proof.
  split; [exact unit_example_magnitude|].
  exact (rotate_isometry unit_example axis_x axis_y unit_example_magnitude).
Defined.

Lemma conjugate_qmul (a b : Quaternion) :
  conjugate (qmul a b) = qmul (conjugate b) (conjugate a).
Proof. destruct a, b. quaternion_components. f_equal; ring. Qed.

Lemma sandwich_pure (q : Quaternion) (v : Vector3) :
  qmul (qmul q (mkQuaternion 0 (v3x v) (v3y v) (v3z v))) (conjugate q)
  = mkQuaternion 0
      (v3x (axis (qmul (qmul q (mkQuaternion 0 (v3x v) (v3y v) (v3z v))) (conjugate q))))
      (v3y (axis (qmul (qmul q (mkQuaternion 0 (v3x v) (v3y v) (v3z v))) (conjugate q))))
      (v3z (axis (qmul (qmul q (mkQuaternion 0 (v3x v) (v3y v) (v3z v))) (conjugate q)))).
Proof.
  destruct q as [w x y z], v as [a b c]. quaternion_components. f_equal; ring.
Qed.

Lemma rotate_compose (a b : Quaternion) (v : Vector3) :
  magnitude a = 1 -> magnitude b = 1 ->
  rotate (qmul a b) v = rotate a (rotate b v).
Proof.
  intros Ha Hb.
  assert (Hab : magnitude (qmul a b) = 1) by (rewrite qmul_magnitude, Ha, Hb; ring).
  rewrite (rotate_unit _ v Hab), (rotate_unit a _ Ha), (rotate_unit b v Hb).
  rewrite <- sandwich_pure.
  rewrite conjugate_qmul, !qmul_assoc. reflexivity.
Qed.

Lemma fromMatrix_tq_positive (m : Matrix33) : 1 - eps < fst (fromMatrix_tq m).
Proof.
  unfold fromMatrix_tq, eps.
  destruct (Rlt_dec (m33 m) _); [destruct (Rgt_dec (m11 m) (m22 m)) |
                                 destruct (Rlt_dec (m11 m) (- m22 m))]; simpl; lra.
Qed.

Lemma sqrt_four_squares (c : R) : sqrt (4 * c * c) = 2 * Rabs c.
Proof.
  replace (4 * c * c) with (Rsqr (2 * c)) by (unfold Rsqr; ring).
  rewrite sqrt_Rsqr_abs, Rabs_mult, (Rabs_pos_eq 2) by lra. reflexivity.
Qed.

Lemma toMatrix_qneg (q : Quaternion) : toMatrix (qneg q) = toMatrix q.
Proof. destruct q. quaternion_components. f_equal; ring. Qed.

(** What [fromMatrix] makes of the scaled list, once [t = 4 * c * c]. *)
Lemma fromMatrix_scaled (m : Matrix33) (t q0 q1 q2 q3 c : R) (q : Quaternion) :
  fromMatrix_tq m = (t, (q0, q1, q2, q3)) ->
  t = 4 * c * c ->
  q0 = 4 * c * qw q -> q1 = 4 * c * qx q -> q2 = 4 * c * qy q -> q3 = 4 * c * qz q ->
  fromMatrix m = Ok q \/ fromMatrix m = Ok (qneg q).
Proof.
  intros Htq Ht H0 H1 H2 H3.
  pose proof (fromMatrix_tq_positive m) as Hpos. rewrite Htq in Hpos. simpl in Hpos.
  unfold eps in Hpos. unfold fromMatrix. rewrite Htq. unfold math_sqrt.
  destruct (Rlt_dec t 0) as [E|_]; [lra|].
  rewrite Ht, sqrt_four_squares.
  assert (Hc : c <> 0) by (intros ->; lra).
  destruct (Req_dec_T (2 * Rabs c) 0) as [E|_].
  - exfalso. pose proof (Rabs_pos_lt c Hc). lra.
  - assert (Hhalf : 0.5 = 1 / 2) by lra. rewrite Hhalf.
    subst q0 q1 q2 q3. destruct q as [w x y z]; cbn [qw qx qy qz].
    destruct (Rle_dec 0 c) as [P|N].
    + left. rewrite (Rabs_pos_eq c P). f_equal. f_equal; field; exact Hc.
    + right. rewrite (Rabs_left1 c) by lra. unfold qneg; cbn [qw qx qy qz].
      f_equal. f_equal; field; lra.
Qed.

Ltac solve_entries :=
  match goal with
  | q : Quaternion, Hs : _ = 1 |- _ =>
      destruct q as [w x y z];
      cbv [toMatrix qw qx qy qz m11 m12 m13 m21 m22 m23 m31 m32 m33] in Hs |- *;
      first [ring | lra]
  end.

(** X11: [fromMatrix] inverts [toMatrix] up to sign. For a unit quaternion
    [q], [fromMatrix (toMatrix q)] never fails and returns [q] or its
    negation, which has the same matrix. *)
Theorem fromMatrix_toMatrix (q : Quaternion) :
  magnitude q = 1 ->
  exists q',
    fromMatrix (toMatrix q) = Ok q' /\ (q' = q \/ q' = qneg q) /\ toMatrix q' = toMatrix q.
Proof.
  intros H. pose proof (magnitude_sqr q H) as Hs.
  assert (Hor : fromMatrix (toMatrix q) = Ok q \/ fromMatrix (toMatrix q) = Ok (qneg q)).
  { assert (Etq : fromMatrix_tq (toMatrix q) = fromMatrix_tq (toMatrix q)) by reflexivity.
    unfold fromMatrix_tq at 2 in Etq.
    destruct (Rlt_dec (m33 (toMatrix q)) eps);
      [destruct (Rgt_dec (m11 (toMatrix q)) (m22 (toMatrix q))) |
       destruct (Rlt_dec (m11 (toMatrix q)) (- m22 (toMatrix q)))];
      cbv zeta in Etq;
      [eapply fromMatrix_scaled with (c := qx q) | eapply fromMatrix_scaled with (c := qy q) |
       eapply fromMatrix_scaled with (c := qz q) | eapply fromMatrix_scaled with (c := qw q)];
      try exact Etq; solve_entries. }
  destruct Hor as [E|E]; eexists; (split; [exact E|]).
  - split; [now left | reflexivity].
  - split; [now right | apply toMatrix_qneg].
Qed.

Lemma fromMatrix_toMatrix_witness :
  magnitude unit_example = 1 /\
  exists q',
    fromMatrix (toMatrix unit_example) = Ok q' /\
    (q' = unit_example \/ q' = qneg unit_example) /\
    toMatrix q' = toMatrix unit_example.
Proof.
  split; [exact unit_example_magnitude|].
  exact (fromMatrix_toMatrix unit_example unit_example_magnitude).
Defined.

(** X12: [toAxisAngle] inverts [fromAxisAngle] away from the ends of the
    turn: for a unit axis and an angle from 0.1 to 2 * pi - 0.1, the
    quaternion made from them converts back to the same axis and the same
    angle. *)
Theorem toAxisAngle_fromAxisAngle (ax : Vector3) (angle : R) :
  v3length ax = 1 -> 1 / 10 <= angle <= 2 * PI - 1 / 10 ->
  toAxisAngle (fromAxisAngle ax angle) = Ok (ax, angle).
Proof.
  intros Hax [Hlo Hhi].
  unfold fromAxisAngle, v3normalized. rewrite Hax.
  destruct (Req_dec_T 1 0) as [E|_]; [lra|].
  set (c := cos (angle / 2)). set (s := sin (angle / 2)).
  unfold toAxisAngle; simpl. fold c.
  pose proof (COS_bound (angle / 2)) as [Hc1 Hc2]. fold c in Hc1, Hc2.
  pose proof (sin2_cos2 (angle / 2)) as Hsc. unfold Rsqr in Hsc. fold c s in Hsc.
  unfold math_acos.
  destruct (Rlt_dec c (-1)) as [E|_]; [lra|].
  destruct (Rlt_dec 1 c) as [E|_]; [lra|].
  assert (Hacos : acos c = angle / 2) by (unfold c; apply acos_cos; lra).
  rewrite Hacos. replace (2 * (angle / 2)) with angle by field.
  unfold math_sqrt.
  destruct (Rlt_dec (1 - c * c) 0) as [E|_]; [nra|].
  destruct (Rlt_dec angle eps) as [Hlt|_]; [unfold eps in Hlt; lra|].
  assert (Hs : 0 < s) by (unfold s; apply sin_gt_0; lra).
  replace (1 - c * c) with (Rsqr s) by (unfold Rsqr; lra).
  rewrite sqrt_Rsqr by lra.
  unfold v3div. destruct (Req_dec_T s 0) as [E|_]; [lra|].
  destruct ax as [x y z]; unfold v3scale; simpl.
  f_equal. f_equal. f_equal; field; lra.
Qed.

Lemma toAxisAngle_fromAxisAngle_witness :
  v3length axis_x = 1 /\ 1 / 10 <= 1 <= 2 * PI - 1 / 10 /\
  toAxisAngle (fromAxisAngle axis_x 1) = Ok (axis_x, 1).
Proof.
  assert (Hr : 1 / 10 <= 1 <= 2 * PI - 1 / 10) by (pose proof PI2_3_2; lra).
  split; [exact axis_x_length|]. split; [exact Hr|].
  exact (toAxisAngle_fromAxisAngle axis_x 1 axis_x_length Hr).
Defined.

(** X13: for a unit quaternion, [toAxisAngle] fails only by dividing by
    zero and only at [w = -1]; when it returns, the angle is
    [2 * acos w], in [0, 2 * pi), and the axis is the zero vector when the
    angle is below [eps] and the vector part over [sqrt (1 - w * w)]
    otherwise, a unit vector. *)
Theorem toAxisAngle_unit (q : Quaternion) :
  magnitude q = 1 ->
  match toAxisAngle q with
  | Ok (ax, angle) =>
      qw q <> -1 /\ 0 <= angle < 2 * PI /\ cos (angle / 2) = qw q /\
      (if Rlt_dec angle eps then ax = Vector3_zero else v3length ax = 1)
  | Raise e => e = ZeroDivisionError /\ qw q = -1
  end.
Proof.
  intros H. pose proof (unit_scalar_bounds q H) as [Hlo Hhi].
  pose proof (magnitude_sqr q H) as Hq.
  pose proof (acos_bound (qw q)) as [Ha0 Ha1].
  assert (Hcos : cos (acos (qw q)) = qw q) by (apply cos_acos; lra).
  assert (Hpi : acos (qw q) = PI -> qw q = -1).
  { intros E. rewrite E, cos_PI in Hcos. lra. }
  unfold toAxisAngle, math_acos, math_sqrt.
  destruct (Rlt_dec (qw q) (-1)) as [E|_]; [lra|].
  destruct (Rlt_dec 1 (qw q)) as [E|_]; [lra|].
  destruct (Rlt_dec (1 - qw q * qw q) 0) as [E|Hs]; [nra|].
  destruct (Rlt_dec (2 * acos (qw q)) eps) as [Hang|Hang].
  - assert (Hw : qw q <> -1).
    { intros E. rewrite E in Hang.
      replace (-1) with (- (1)) in Hang by lra.
      rewrite acos_opp, acos_1 in Hang. pose proof PI2_3_2. unfold eps in Hang. lra. }
    split; [exact Hw|]. split.
    + split; [lra|]. pose proof PI2_3_2. unfold eps in Hang. lra.
    + split.
      * replace (2 * acos (qw q) / 2) with (acos (qw q)) by field. exact Hcos.
      * destruct (Rlt_dec (2 * acos (qw q)) eps) as [_|N]; [reflexivity|contradiction].
  - unfold v3div.
    destruct (Req_dec_T (sqrt (1 - qw q * qw q)) 0) as [E|N].
    + apply sqrt_eq_0 in E; [|lra].
      assert (Hor : qw q = 1 \/ qw q = -1) by nra.
      destruct Hor as [Hone|Hm]; [|split; [reflexivity|exact Hm]].
      exfalso. apply Hang. rewrite Hone, acos_1. unfold eps. lra.
    + assert (Hw : qw q <> -1).
      { intros E. apply N. rewrite E. replace (1 - -1 * -1) with 0 by ring. apply sqrt_0. }
      split; [exact Hw|]. split.
      * split; [lra|]. destruct (Req_dec_T (acos (qw q)) PI) as [E|NE]; [now apply Hpi in E|lra].
      * split.
        -- replace (2 * acos (qw q) / 2) with (acos (qw q)) by field. exact Hcos.
        -- destruct (Rlt_dec (2 * acos (qw q)) eps) as [Y|_]; [contradiction|].
           assert (Hpos : 0 <= 1 - qw q * qw q) by lra.
           pose proof (sqrt_sqrt _ Hpos) as Hss.
           set (s := sqrt (1 - qw q * qw q)) in *.
           unfold v3length, v3dot, v3scale. cbn [v3x v3y v3z].
           replace (qx q * / s * (qx q * / s) + qy q * / s * (qy q * / s)
                    + qz q * / s * (qz q * / s))
             with ((qx q * qx q + qy q * qy q + qz q * qz q) / (s * s)) by (field; exact N).
           rewrite Hss.
           replace (qx q * qx q + qy q * qy q + qz q * qz q) with (1 - qw q * qw q) by lra.
           replace ((1 - qw q * qw q) / (1 - qw q * qw q)) with 1.
           ++ apply sqrt_1.
           ++ field. intros E. apply N. unfold s. rewrite E. apply sqrt_0.
Qed.

Lemma toAxisAngle_unit_witness :
  magnitude unit_example = 1 /\
  match toAxisAngle unit_example with
  | Ok (ax, angle) =>
      qw unit_example <> -1 /\ 0 <= angle < 2 * PI /\ cos (angle / 2) = qw unit_example /\
      (if Rlt_dec angle eps then ax = Vector3_zero else v3length ax = 1)
  | Raise e => e = ZeroDivisionError /\ qw unit_example = -1
  end.
Proof.
  split; [exact unit_example_magnitude|].
  exact (toAxisAngle_unit unit_example unit_example_magnitude).
Defined.

(** ** Poses (QuaternionVectorPair) *)

Lemma rotate_zero (q : Quaternion) : rotate q Vector3_zero = Vector3_zero.
Proof.
  unfold rotate. destruct (inverse q) as [w' x' y' z']. destruct q as [w x y z].
  unfold Vector3_zero. quaternion_components. f_equal; ring.
Qed.

Lemma rotate_add (q : Quaternion) (u v : Vector3) :
  rotate q (v3add u v) = v3add (rotate q u) (rotate q v).
Proof.
  unfold rotate. destruct (inverse q) as [w' x' y' z']. destruct q as [w x y z].
  destruct u, v. quaternion_components. f_equal; ring.
Qed.

Lemma v3add_assoc (a b c : Vector3) : v3add (v3add a b) c = v3add a (v3add b c).
Proof. destruct a, b, c. quaternion_components. f_equal; ring. Qed.

(** X14: composition of poses whose quaternions are unit quaternions is
    associative, and the identity pose is its unit on both sides. *)
Theorem pair_mul_monoid (a b c : QuaternionVectorPair) :
  magnitude (pair_quaternion a) = 1 -> magnitude (pair_quaternion b) = 1 ->
  pair_mul (pair_mul a b) c = pair_mul a (pair_mul b c) /\
  pair_mul pair_identity a = a /\
  pair_mul a pair_identity = a.
Proof.
  intros Ha Hb. destruct a as [qa va], b as [qb vb], c as [qc vc].
  cbn [pair_quaternion] in Ha, Hb.
  split; [|split]; unfold pair_mul, pair_identity; cbn [pair_quaternion pair_vector].
  - f_equal; [apply qmul_assoc|].
    rewrite (rotate_compose qa qb vc Ha Hb), rotate_add. symmetry. apply v3add_assoc.
  - rewrite rotate_identity, qmul_identity_l.
    f_equal. destruct va. unfold Vector3_zero. quaternion_components. f_equal; ring.
  - rewrite rotate_zero. f_equal.
    + apply qmul_identity_r.
    + destruct va. unfold Vector3_zero. quaternion_components. f_equal; ring.
Qed.

Lemma pair_mul_monoid_witness :
  magnitude (pair_quaternion pair_example) = 1 /\
  pair_mul (pair_mul pair_example pair_example) pair_example
  = pair_mul pair_example (pair_mul pair_example pair_example) /\
  pair_mul pair_identity pair_example = pair_example /\
  pair_mul pair_example pair_identity = pair_example.
Proof.
  split; [exact unit_example_magnitude|].
  exact (pair_mul_monoid pair_example pair_example pair_example
           unit_example_magnitude unit_example_magnitude).
Defined.

Lemma toMatrix_qmul_apply (a b : Quaternion) (v : Vector3) :
  magnitude a = 1 -> magnitude b = 1 ->
  m33_apply (toMatrix (qmul a b)) v = m33_apply (toMatrix a) (m33_apply (toMatrix b) v).
Proof.
  intros Ha Hb.
  assert (Hab : magnitude (qmul a b) = 1) by (rewrite qmul_magnitude, Ha, Hb; ring).
  rewrite <- !rotate_apply by assumption. now apply rotate_compose.
Qed.

Lemma m33_apply_columns (m : Matrix33) :
  m33_apply m (mkVector3 1 0 0) = mkVector3 (m11 m) (m21 m) (m31 m) /\
  m33_apply m (mkVector3 0 1 0) = mkVector3 (m12 m) (m22 m) (m32 m) /\
  m33_apply m (mkVector3 0 0 1) = mkVector3 (m13 m) (m23 m) (m33 m).
Proof. destruct m. quaternion_components. repeat split; f_equal; ring. Qed.

(** X15: [toMatrix] of a pose turns composition into the matrix product:
    for poses with unit quaternions, the matrix of [a * b] is the product
    of the matrices of [a] and [b]. *)
Theorem pair_toMatrix_mul (a b : QuaternionVectorPair) :
  magnitude (pair_quaternion a) = 1 -> magnitude (pair_quaternion b) = 1 ->
  pair_toMatrix (pair_mul a b) = mat_mul (pair_toMatrix a) (pair_toMatrix b).
Proof.
  intros Ha Hb. destruct a as [qa va], b as [qb vb].
  cbn [pair_quaternion] in Ha, Hb.
  unfold pair_mul, pair_toMatrix; cbn [pair_quaternion pair_vector].
  rewrite (rotate_apply qa vb Ha).
  destruct (m33_apply_columns (toMatrix (qmul qa qb))) as (C1 & C2 & C3).
  rewrite (toMatrix_qmul_apply qa qb _ Ha Hb) in C1.
  rewrite (toMatrix_qmul_apply qa qb _ Ha Hb) in C2.
  rewrite (toMatrix_qmul_apply qa qb _ Ha Hb) in C3.
  destruct (m33_apply_columns (toMatrix qb)) as (B1 & B2 & B3).
  rewrite B1 in C1. rewrite B2 in C2. rewrite B3 in C3.
  set (A := toMatrix qa) in *. set (B := toMatrix qb) in *.
  set (C := toMatrix (qmul qa qb)) in *. clearbody A B C.
  cbv [m33_apply v3x v3y v3z] in C1, C2, C3.
  pose proof (f_equal v3x C1) as E11. pose proof (f_equal v3y C1) as E21.
  pose proof (f_equal v3z C1) as E31. pose proof (f_equal v3x C2) as E12.
  pose proof (f_equal v3y C2) as E22. pose proof (f_equal v3z C2) as E32.
  pose proof (f_equal v3x C3) as E13. pose proof (f_equal v3y C3) as E23.
  pose proof (f_equal v3z C3) as E33.
  cbn [v3x v3y v3z] in E11, E21, E31, E12, E22, E32, E13, E23, E33.
  destruct va as [a1 a2 a3], vb as [b1 b2 b3].
  unfold mat_mul, column, m33_apply, v3add.
  cbn [map seq length hd nth dot v3x v3y v3z].
  rewrite <- E11, <- E21, <- E31, <- E12, <- E22, <- E32, <- E13, <- E23, <- E33.
  repeat (f_equal; try ring).
Qed.

Lemma pair_toMatrix_mul_witness :
  magnitude (pair_quaternion pair_example) = 1 /\
  magnitude (pair_quaternion pair_identity) = 1 /\
  pair_toMatrix (pair_mul pair_example pair_identity)
  = mat_mul (pair_toMatrix pair_example) (pair_toMatrix pair_identity).
Proof.
  split; [exact unit_example_magnitude|]. split; [exact magnitude_identity|].
  exact (pair_toMatrix_mul pair_example pair_identity
           unit_example_magnitude magnitude_identity).
Defined.

(** ** Links *)

Lemma move_keeps (l : Link) (o : R) (il sp : bool) :
  locked (move l o il sp) = locked l /\
  ignore_limits (move l o il sp) = ignore_limits l /\
  default_offset (move l o il sp) = default_offset l /\
  home (move l o il sp) = home l /\
  joint_axis (move l o il sp) = joint_axis l /\
  type (move l o il sp) = type l /\
  upper_limit (move l o il sp) = upper_limit l /\
  lower_limit (move l o il sp) = lower_limit l.
Proof.
  unfold move. destruct (locked l && negb il); [repeat split; reflexivity|].
  destruct (type l); repeat split; reflexivity.
Qed.

Lemma move_offset (l : Link) (o : R) (il sp : bool) :
  locked l && negb il = false ->
  offset (move l o il sp) = o /\
  set_point (move l o il sp) = (if sp then o else set_point l).
Proof.
  intros H. unfold move. rewrite H. destruct (type l); split; reflexivity.
Qed.

Lemma move_unlocked (l : Link) (o : R) (il sp : bool) :
  locked l = false -> move l o il sp = move l o true sp.
Proof. intros H. unfold move. rewrite H. reflexivity. Qed.

Lemma move_idempotent_link (l : Link) (o : R) (il sp : bool) :
  move (move l o il sp) o il sp = move l o il sp.
Proof.
  unfold move. destruct (locked l) eqn:El, il; cbn [andb negb]; try (rewrite El; reflexivity).
  - destruct (type l) eqn:Et; cbn [locked type]; rewrite ?El; cbn [andb negb];
      destruct sp; reflexivity.
  - destruct (type l) eqn:Et; cbn [locked type]; rewrite ?El; cbn [andb negb];
      destruct sp; reflexivity.
  - destruct (type l) eqn:Et; cbn [locked type]; rewrite ?El; cbn [andb negb];
      destruct sp; reflexivity.
Qed.

(** X16: [Link.__init__] raises ValueError exactly for an axis shorter than
    0.00001. Otherwise the new link is unlocked, respects its limits, holds
    the arguments it was given, and its offset and set point are the
    default offset (0 without one); it is already at that offset: moving it
    there again changes nothing. *)
Theorem Link_init_validates (ax point : Vector3) (joint_type : LinkType)
    (default upper lower : option R) :
  match Link_init ax point joint_type default upper lower with
  | Raise e => e = ValueError /\ v3length ax < 0.00001
  | Ok l =>
      0.00001 <= v3length ax /\
      offset l = match default with Some v => v | None => 0 end /\
      set_point l = offset l /\ default_offset l = offset l /\
      locked l = false /\ ignore_limits l = false /\
      joint_axis l = ax /\ home l = point /\ type l = joint_type /\
      upper_limit l = upper /\ lower_limit l = lower /\
      move l (offset l) false true = l
  end.
Proof.
  unfold Link_init.
  destruct (Rlt_dec (v3length ax) 0.00001) as [Hlt|Hge]; [split; [reflexivity | exact Hlt]|].
  set (d := match default with Some v => v | None => 0 end).
  set (l0 := mkLink ax (fromAxisAngle ax 0) point point joint_type lower upper d d d
                    false false).
  unfold Link_reset. change (default_offset l0) with d.
  destruct (move_keeps l0 d true true) as (K1 & K2 & K3 & K4 & K5 & K6 & K7 & K8).
  destruct (move_offset l0 d true true eq_refl) as (O1 & O2).
  split; [lra|]. rewrite O1, O2, K1, K2, K3, K4, K5, K6, K7, K8.
  repeat (split; [reflexivity|]).
  rewrite (move_unlocked _ d false true) by exact K1.
  apply move_idempotent_link.
Qed.

(** X17: [move] is idempotent (moving a link to the offset it was just moved
    to changes nothing), and it never changes the lock, the limit flag, the
    default offset, the home position or the axis of the link. *)
Theorem move_idempotent (l : Link) (o : R) (ignore_locks setpoint : bool) :
  move (move l o ignore_locks setpoint) o ignore_locks setpoint
  = move l o ignore_locks setpoint /\
  locked (move l o ignore_locks setpoint) = locked l /\
  ignore_limits (move l o ignore_locks setpoint) = ignore_limits l /\
  default_offset (move l o ignore_locks setpoint) = default_offset l /\
  home (move l o ignore_locks setpoint) = home l /\
  joint_axis (move l o ignore_locks setpoint) = joint_axis l.
Proof.
  split; [apply move_idempotent_link|].
  unfold move. destruct (locked l && negb ignore_locks); [repeat split; reflexivity|].
  destruct (type l); repeat split; reflexivity.
Qed.

(** X18: moving a revolute link that is free to move keeps its point on the
    sphere through its home position: the length of [vector] is the length
    of [home] at every offset, and the link's quaternion is a unit
    quaternion. *)
Theorem revolute_keeps_distance (l : Link) (o : R) (ignore_locks setpoint : bool) :
  type l = Revolute -> v3length (joint_axis l) <> 0 ->
  locked l && negb ignore_locks = false ->
  v3length (vector (move l o ignore_locks setpoint)) = v3length (home l) /\
  magnitude (quaternion (move l o ignore_locks setpoint)) = 1.
Proof.
  intros Ht Hax Hl. unfold move. rewrite Hl, Ht. cbn [vector quaternion].
  pose proof (fromAxisAngle_magnitude (joint_axis l) o Hax) as Hq.
  split; [|exact Hq].
  unfold v3length. f_equal. apply (rotate_dot _ _ _ Hq).
Qed.

Lemma revolute_keeps_distance_witness :
  type revolute_link = Revolute /\ v3length (joint_axis revolute_link) <> 0 /\
  locked revolute_link && negb false = false /\
  v3length (vector (move revolute_link 1 false true)) = v3length (home revolute_link) /\
  magnitude (quaternion (move revolute_link 1 false true)) = 1.
Proof.
  assert (Hax : v3length (joint_axis revolute_link) <> 0).
  { change (joint_axis revolute_link) with axis_x. rewrite axis_x_length. lra. }
  split; [reflexivity|]. split; [exact Hax|]. split; [reflexivity|].
  exact (revolute_keeps_distance revolute_link 1 false true eq_refl Hax eq_refl).
Defined.

(** ** Serial manipulators *)

Lemma nth_error_combine {A B : Type} (l : list A) : forall (l' : list B) (i : nat),
  nth_error (combine l l') i
  = match nth_error l i, nth_error l' i with
    | Some a, Some b => Some (a, b)
    | _, _ => None
    end.
Proof.
  induction l as [|a l IH]; intros [|b l'] [|i]; simpl; try reflexivity.
  - destruct (nth_error l i); reflexivity.
  - apply IH.
Qed.

Lemma fkine_default_range (s : SerialManipulator) (q : list R)
    (include_base ignore_locks setpoint : bool) :
  length q = length (links s) ->
  fkine s q 0 None include_base ignore_locks setpoint
  = (mkSerialManipulator (moved_links q ignore_locks setpoint (links s))
                         (base s) (default_base s) (tool s),
     Ok (mat_mul
           (mat_mul (if include_base then base s else Matrix44_identity)
                    (pair_toMatrix
                       (compose_all (moved_links q ignore_locks setpoint (links s)))))
           (tool s))).
Proof.
  intros Hq. unfold fkine, numberOfLinks, fkine_start, fkine_end, range.
  cbn [Z.ltb Z.compare Z.eqb]. rewrite Z.eqb_refl, andb_true_r, Z.sub_0_r, Nat2Z.id.
  change (Z.to_nat 0) with 0%nat.
  destruct (fkine_loop_spec q ignore_locks setpoint (length (links s)) 0 (links s)
              pair_identity ltac:(lia) ltac:(lia))
    as (ls' & Hrun & Hlen & Hin & Hout).
  assert (Hls : ls' = moved_links q ignore_locks setpoint (links s)).
  { apply nth_error_ext. intros i. unfold moved_links.
    rewrite nth_error_map, nth_error_combine.
    destruct (Nat.lt_ge_cases i (length (links s))) as [Hi|Hi].
    - rewrite Hin by lia.
      destruct (nth_error (links s) i) as [l|] eqn:El;
        [| apply nth_error_None in El; lia].
      destruct (nth_error q i) as [qi|] eqn:Eq;
        [| apply nth_error_None in Eq; lia].
      simpl. f_equal. f_equal. apply nth_error_nth. exact Eq.
    - rewrite Hout by lia.
      destruct (nth_error (links s) i) as [l|] eqn:El; [|reflexivity].
      assert (i < length (links s))%nat by (apply nth_error_Some; congruence). lia. }
  rewrite Hrun. unfold compose_links, compose_all. simpl skipn.
  rewrite <- Hlen, firstn_all, Hls. reflexivity.
Qed.

Lemma moved_links_length (q : list R) (il sp : bool) (ls : list Link) :
  length q = length ls -> length (moved_links q il sp ls) = length ls.
Proof. intros H. unfold moved_links. rewrite length_map, length_combine. lia. Qed.

Lemma moved_links_again (q : list R) (il sp : bool) : forall ls : list Link,
  length q = length ls ->
  moved_links q il sp (moved_links q il sp ls) = moved_links q il sp ls.
Proof.
  unfold moved_links. induction q as [|o q IH]; intros [|l ls] H; simpl in *; try lia;
    try reflexivity.
  rewrite move_idempotent_link. f_equal. apply IH. lia.
Qed.

Lemma map_combine_fst {A B C : Type} (f : A * B -> C) (g : A -> C) :
  (forall ab, f ab = g (fst ab)) ->
  forall (q : list B) (ls : list A), length q = length ls ->
                                     map f (combine ls q) = map g ls.
Proof.
  intros Hf. induction q as [|o q IH]; intros [|l ls] H; simpl in *;
    try discriminate; try reflexivity.
  injection H as H. rewrite Hf, (IH ls H). reflexivity.
Qed.

(** X19: what [fkine] over all links leaves in the chain, for a [q] with one
    entry per link. The new configuration has the entry of [q] at each link
    that moved and the old offset at each locked link (when locks are not
    ignored); the set points follow only where the link moved and
    [setpoint] is on; no lock changes. *)
Theorem fkine_configuration (s : SerialManipulator) (q : list R)
    (include_base ignore_locks setpoint : bool) :
  length q = length (links s) ->
  configuration (fst (fkine s q 0 None include_base ignore_locks setpoint))
  = map (fun lq => if locked (fst lq) && negb ignore_locks then offset (fst lq) else snd lq)
        (combine (links s) q) /\
  set_points (fst (fkine s q 0 None include_base ignore_locks setpoint))
  = map (fun lq => if (locked (fst lq) && negb ignore_locks) || negb setpoint
                   then set_point (fst lq) else snd lq)
        (combine (links s) q) /\
  map locked (links (fst (fkine s q 0 None include_base ignore_locks setpoint)))
  = map locked (links s).
Proof.
  intros Hq. rewrite (fkine_default_range s q _ _ _ Hq). cbn [fst].
  unfold configuration, set_points, moved_links. cbn [links]. rewrite !map_map.
  split; [|split].
  - apply map_ext. intros [l o]. cbn [fst snd]. unfold move.
    destruct (locked l && negb ignore_locks); [reflexivity|]. destruct (type l); reflexivity.
  - apply map_ext. intros [l o]. cbn [fst snd]. unfold move.
    destruct (locked l && negb ignore_locks); cbn [orb]; [reflexivity|].
    destruct (type l), setpoint; reflexivity.
  - apply map_combine_fst; [|exact Hq]. intros [l o]. cbn [fst snd]. unfold move.
    destruct (locked l && negb ignore_locks); [reflexivity|]. destruct (type l); reflexivity.
Qed.

Lemma fkine_configuration_witness :
  length [1; 5] = length (links example_chain) /\
  configuration (fst (fkine example_chain [1; 5] 0 None true false true))
  = map (fun lq => if locked (fst lq) && negb false then offset (fst lq) else snd lq)
        (combine (links example_chain) [1; 5]) /\
  set_points (fst (fkine example_chain [1; 5] 0 None true false true))
  = map (fun lq => if (locked (fst lq) && negb false) || negb true
                   then set_point (fst lq) else snd lq)
        (combine (links example_chain) [1; 5]) /\
  map locked (links (fst (fkine example_chain [1; 5] 0 None true false true)))
  = map locked (links example_chain).
Proof.
  split; [reflexivity|].
  exact (fkine_configuration example_chain [1; 5] true false true eq_refl).
Defined.

(** X20: [fkine] over all links with the base included returns the [pose]
    property of the chain it leaves behind, and it has settled: the same
    call again returns the same matrix and changes nothing. *)
Theorem fkine_settles (s : SerialManipulator) (q : list R)
    (include_base ignore_locks setpoint : bool) :
  length q = length (links s) ->
  snd (fkine s q 0 None true ignore_locks setpoint)
  = Ok (pose (fst (fkine s q 0 None true ignore_locks setpoint))) /\
  fkine (fst (fkine s q 0 None include_base ignore_locks setpoint)) q 0 None
        include_base ignore_locks setpoint
  = fkine s q 0 None include_base ignore_locks setpoint.
Proof.
  intros Hq. split.
  - rewrite (fkine_default_range s q _ _ _ Hq). reflexivity.
  - rewrite (fkine_default_range s q _ _ _ Hq). cbn [fst].
    rewrite fkine_default_range
      by (cbn [links]; rewrite moved_links_length; [exact Hq | exact Hq]).
    cbn [links base default_base tool].
    rewrite moved_links_again by exact Hq. reflexivity.
Qed.

Lemma fkine_settles_witness :
  length [1; 5] = length (links example_chain) /\
  snd (fkine example_chain [1; 5] 0 None true false true)
  = Ok (pose (fst (fkine example_chain [1; 5] 0 None true false true))) /\
  fkine (fst (fkine example_chain [1; 5] 0 None true false true)) [1; 5] 0 None
        true false true
  = fkine example_chain [1; 5] 0 None true false true.
Proof.
  split; [reflexivity|].
  exact (fkine_settles example_chain [1; 5] true false true eq_refl).
Defined.

(** X21: with fewer entries in [q] than links, [fkine] over all links
    raises IndexError, but only after it has moved the links that have an
    entry: the chain is left with its first [length q] links moved and the
    others as they were. *)
Theorem fkine_short_configuration (s : SerialManipulator) (q : list R)
    (include_base ignore_locks setpoint : bool) :
  (length q < length (links s))%nat ->
  snd (fkine s q 0 None include_base ignore_locks setpoint) = Raise IndexError /\
  links (fst (fkine s q 0 None include_base ignore_locks setpoint))
  = moved_links q ignore_locks setpoint (links s) ++ skipn (length q) (links s).
Proof.
  intros Hq.
  destruct (fkine_loop_short q ignore_locks setpoint (length (links s)) 0 (links s)
              pair_identity ltac:(lia) ltac:(lia) ltac:(lia))
    as (ls' & Hrun & Hlen & Hin & Hout).
  assert (Hf : fkine s q 0 None include_base ignore_locks setpoint
               = (mkSerialManipulator ls' (base s) (default_base s) (tool s),
                  Raise IndexError)).
  { unfold fkine, numberOfLinks, fkine_start, fkine_end, range.
    cbn [Z.ltb Z.compare]. rewrite Z.sub_0_r, Nat2Z.id.
    change (Z.to_nat 0) with 0%nat. rewrite Hrun. reflexivity. }
  rewrite Hf. cbn [fst snd links].
  split; [reflexivity|].
  assert (Hml : length (moved_links q ignore_locks setpoint (links s)) = length q).
  { unfold moved_links. rewrite length_map, length_combine. lia. }
  apply nth_error_ext. intros i.
  destruct (Nat.lt_ge_cases i (length q)) as [Hi|Hi].
  - rewrite nth_error_app1 by lia. rewrite Hin by lia.
    unfold moved_links. rewrite nth_error_map, nth_error_combine.
    destruct (nth_error (links s) i) as [l|] eqn:El;
      [| apply nth_error_None in El; lia].
    destruct (nth_error q i) as [qi|] eqn:Eq;
      [| apply nth_error_None in Eq; lia].
    simpl. f_equal. f_equal. now apply nth_error_nth.
  - rewrite nth_error_app2 by lia. rewrite Hml, nth_error_skipn.
    rewrite Hout by lia. f_equal. lia.
Qed.

Lemma fkine_short_configuration_witness :
  (length [1] < length (links example_chain))%nat /\
  snd (fkine example_chain [1] 0 None true false true) = Raise IndexError /\
  links (fst (fkine example_chain [1] 0 None true false true))
  = moved_links [1] false true (links example_chain)
    ++ skipn (length [1]) (links example_chain).
Proof.
  assert (H : (length [1] < length (links example_chain))%nat) by (simpl; lia).
  split; [exact H|].
  exact (fkine_short_configuration example_chain [1] true false true H).
Defined.

(** X22: [resetOffsets] puts every offset and set point at the link's
    default, also for locked links, and keeps the locks, the limit flags and
    the base; [reset] leaves the same configuration. *)
Theorem resetOffsets_keeps_locks (s : SerialManipulator) :
  configuration (resetOffsets s) = map default_offset (links s) /\
  set_points (resetOffsets s) = map default_offset (links s) /\
  map locked (links (resetOffsets s)) = map locked (links s) /\
  map ignore_limits (links (resetOffsets s)) = map ignore_limits (links s) /\
  base (resetOffsets s) = base s /\
  configuration (reset s) = configuration (resetOffsets s).
Proof.
  unfold resetOffsets, reset, configuration, set_points. cbn [links base].
  rewrite !map_map.
  repeat split; try reflexivity; apply map_ext; intros l;
    unfold set_ignore_limits, set_locked, Link_reset, move; rewrite andb_false_r;
    destruct (type l); reflexivity.
Qed.

Lemma Link_reset_flags (b b' : bool) (l : Link) :
  Link_reset (set_ignore_limits b (set_locked b' l))
  = set_ignore_limits b (set_locked b' (Link_reset l)).
Proof.
  destruct l as [ax q v h t lo up d sp o lk ig].
  unfold Link_reset, set_ignore_limits, set_locked, move.
  cbn [locked type default_offset joint_axis quaternion vector home lower_limit upper_limit
       set_point offset ignore_limits].
  rewrite !andb_false_r. destruct t; reflexivity.
Qed.

Lemma Link_reset_idempotent (l : Link) : Link_reset (Link_reset l) = Link_reset l.
Proof.
  unfold Link_reset at 1.
  destruct (move_keeps l (default_offset l) true true) as (_ & _ & Hd & _).
  unfold Link_reset. rewrite Hd. apply move_idempotent_link.
Qed.

Lemma set_flags_idempotent (b b' : bool) (l : Link) :
  set_ignore_limits b (set_locked b' (set_ignore_limits b (set_locked b' l)))
  = set_ignore_limits b (set_locked b' l).
Proof. destruct l. reflexivity. Qed.

(** X23: [reset] is idempotent, and [resetOffsets] after [reset] changes
    nothing. *)
Theorem reset_idempotent (s : SerialManipulator) :
  reset (reset s) = reset s /\ resetOffsets (reset s) = reset s.
Proof.
  unfold reset, resetOffsets. cbn [links base default_base tool].
  split; f_equal; rewrite map_map; apply map_ext; intros l.
  - rewrite Link_reset_flags, Link_reset_idempotent. apply set_flags_idempotent.
  - rewrite Link_reset_flags, Link_reset_idempotent. reflexivity.
Qed.

Lemma set_points_links_spec (q : list R) : forall ls : list Link,
  map set_point (set_points_links q ls)
  = firstn (length ls) q ++ skipn (length q) (map set_point ls) /\
  map offset (set_points_links q ls) = map offset ls /\
  map locked (set_points_links q ls) = map locked ls.
Proof.
  induction q as [|v q IH]; intros [|l ls]; simpl; try (repeat split; reflexivity).
  destruct (IH ls) as (H1 & H2 & H3). rewrite H1, H2, H3. repeat split; reflexivity.
Qed.

(** X24: the [set_points] setter and getter round trip: after assigning a
    [q] with one entry per link, [set_points] reads [q] back, and neither
    the configuration nor a lock has changed. *)
Theorem set_points_round_trip (s : SerialManipulator) (q : list R) :
  length q = length (links s) ->
  set_points (set_set_points s q) = q /\
  configuration (set_set_points s q) = configuration s /\
  map locked (links (set_set_points s q)) = map locked (links s).
Proof.
  intros Hq. unfold set_points, configuration, set_set_points. cbn [links].
  destruct (set_points_links_spec q (links s)) as (H1 & H2 & H3).
  split; [|split; [exact H2 | exact H3]].
  rewrite H1, <- Hq, firstn_all.
  rewrite skipn_all2 by (rewrite length_map; lia). apply app_nil_r.
Qed.

Lemma set_points_round_trip_witness :
  length [1; 5] = length (links example_chain) /\
  set_points (set_set_points example_chain [1; 5]) = [1; 5] /\
  configuration (set_set_points example_chain [1; 5]) = configuration example_chain /\
  map locked (links (set_set_points example_chain [1; 5]))
  = map locked (links example_chain).
Proof.
  split; [reflexivity|].
  exact (set_points_round_trip example_chain [1; 5] eq_refl).
Defined.

(** ** Trajectories *)

Lemma linspace_range (b : R) (n : nat) :
  0 <= b -> Forall (fun t => 0 <= t <= b) (linspace 0 b n).
Proof.
  intros Hb. unfold linspace. destruct n as [|[|n]].
  - constructor.
  - constructor; [lra | constructor].
  - set (N := S (S n)). apply Forall_forall. intros t Hin.
    apply in_map_iff in Hin. destruct Hin as (k & <- & Hk). apply in_seq in Hk.
    assert (HN : 0 < INR (N - 1)) by (apply lt_0_INR; unfold N; lia).
    assert (Hk0 : 0 <= INR k) by apply pos_INR.
    assert (Hk1 : INR k <= INR (N - 1)) by (apply le_INR; lia).
    set (d := INR (N - 1)) in *. set (x := INR k) in *.
    replace (0 + x * ((b - 0) / d)) with (b * (x / d)) by (field; lra).
    assert (Hr : 0 <= x / d <= 1).
    { split.
      - apply Rmult_le_pos; [lra | left; now apply Rinv_0_lt_compat].
      - apply Rmult_le_reg_r with d; [exact HN|].
        replace (x / d * d) with x by (field; lra). lra. }
    split; nra.
Qed.

Lemma cubic_value_between (p0 p1 tf t : R) :
  0 < tf -> 0 <= t <= tf ->
  Rmin p0 p1 <= polyval (cubic_coefficients p0 p1 tf) t <= Rmax p0 p1.
Proof.
  intros Htf [Ht0 Ht1]. unfold cubic_coefficients. rewrite polyval_cubic.
  set (s := t / tf).
  assert (Hs : 0 <= s <= 1).
  { unfold s. split.
    - apply Rmult_le_pos; [lra | left; now apply Rinv_0_lt_compat].
    - apply Rmult_le_reg_r with tf; [exact Htf|].
      replace (t / tf * tf) with t by (field; lra). lra. }
  replace (-2 * (p1 - p0) / (tf * tf * tf) * t * t * t + 3 * (p1 - p0) / (tf * tf) * t * t
           + 0 * t + p0)
    with (p0 + (p1 - p0) * (3 * s * s - 2 * s * s * s)) by (unfold s; field; lra).
  set (h := 3 * s * s - 2 * s * s * s).
  assert (Hh0 : 0 <= h).
  { unfold h. replace (3 * s * s - 2 * s * s * s) with (s * s * (3 - 2 * s)) by ring.
    apply Rmult_le_pos; nra. }
  assert (Hh1 : h <= 1).
  { unfold h. assert (0 <= (1 - s) * (1 - s) * (1 + 2 * s)) by (apply Rmult_le_pos; nra).
    nra. }
  unfold Rmin, Rmax. destruct (Rle_dec p0 p1); split; nra.
Qed.

Lemma cubic_polynomial_trajectory_zero (p0 p1 : R) :
  cubic_polynomial_trajectory p0 p1 0 = Raise LinAlgError.
Proof.
  unfold cubic_polynomial_trajectory, linalg_inv.
  match goal with
  | |- context [Req_dec_T ?d 0] => assert (Hd : d = 0) by (cbn; ring)
  end.
  rewrite Hd. destruct (Req_dec_T 0 0) as [_|N]; [reflexivity | contradiction].
Qed.

(** X25: [cubic_polynomial_trajectory] with [step = 0] fails in
    [np.linalg.inv] (the matrix is singular); with any other [step] it
    returns [step] offsets, none of which leaves the interval between [p0]
    and [p1]: the cubic does not overshoot. *)
Theorem cubic_trajectory_within (p0 p1 : R) (step : nat) :
  match step with
  | O => cubic_polynomial_trajectory p0 p1 step = Raise LinAlgError
  | S _ =>
      exists t,
        cubic_polynomial_trajectory p0 p1 step = Ok t /\
        length t = step /\
        Forall (fun v => Rmin p0 p1 <= v <= Rmax p0 p1) t
  end.
Proof.
  destruct step as [|n]; [apply cubic_polynomial_trajectory_zero|].
  set (step := S n).
  assert (Hstep : (1 <= step)%nat) by (unfold step; lia).
  rewrite (cubic_polynomial_trajectory_eq p0 p1 step Hstep).
  eexists. split; [reflexivity|]. split; [now rewrite length_map, linspace_length|].
  assert (Htf : 0 < INR step) by (apply lt_0_INR; lia).
  apply Forall_map. eapply Forall_impl; [| apply (linspace_range (INR step) step); lra].
  intros t Ht. cbv beta in *. apply cubic_value_between; assumption.
Qed.

Lemma cubic_value_monotone (p0 p1 tf t1 t2 : R) :
  0 < tf -> 0 <= t1 -> t1 <= t2 -> t2 <= tf -> p0 <= p1 ->
  polyval (cubic_coefficients p0 p1 tf) t1 <= polyval (cubic_coefficients p0 p1 tf) t2.
Proof.
  intros Htf H0 H12 H2 Hp. unfold cubic_coefficients. rewrite !polyval_cubic.
  set (s1 := t1 / tf). set (s2 := t2 / tf).
  assert (Hinv : 0 < / tf) by now apply Rinv_0_lt_compat.
  assert (Hs1 : 0 <= s1) by (unfold s1; apply Rmult_le_pos; lra).
  assert (Hs12 : s1 <= s2) by (unfold s1, s2; apply Rmult_le_compat_r; lra).
  assert (Hs2 : s2 <= 1).
  { unfold s2. apply Rmult_le_reg_r with tf; [exact Htf|].
    replace (t2 / tf * tf) with t2 by (field; lra). lra. }
  replace (-2 * (p1 - p0) / (tf * tf * tf) * t1 * t1 * t1
           + 3 * (p1 - p0) / (tf * tf) * t1 * t1 + 0 * t1 + p0)
    with (p0 + (p1 - p0) * (3 * s1 * s1 - 2 * s1 * s1 * s1)) by (unfold s1; field; lra).
  replace (-2 * (p1 - p0) / (tf * tf * tf) * t2 * t2 * t2
           + 3 * (p1 - p0) / (tf * tf) * t2 * t2 + 0 * t2 + p0)
    with (p0 + (p1 - p0) * (3 * s2 * s2 - 2 * s2 * s2 * s2)) by (unfold s2; field; lra).
  assert (Hh : 3 * s1 * s1 - 2 * s1 * s1 * s1 <= 3 * s2 * s2 - 2 * s2 * s2 * s2).
  { assert (Hf : 0 <= (s2 - s1)
                      * (3 * (s1 + s2) - 2 * (s1 * s1 + s1 * s2 + s2 * s2))).
    { apply Rmult_le_pos; [lra|]. nra. }
    nra. }
  nra.
Qed.

(** X26: towards a larger target the offsets of
    [cubic_polynomial_trajectory] never decrease from one step to the
    next. *)
Theorem cubic_trajectory_monotone (p0 p1 : R) (step k : nat) :
  p0 <= p1 -> (S k < step)%nat ->
  exists t,
    cubic_polynomial_trajectory p0 p1 step = Ok t /\ nth k t 0 <= nth (S k) t 0.
Proof.
  intros Hp Hk.
  rewrite (cubic_polynomial_trajectory_eq p0 p1 step) by lia.
  eexists. split; [reflexivity|].
  set (p := polyval (cubic_coefficients p0 p1 (INR step))).
  rewrite !(nth_indep _ 0 (p 0)) by (rewrite length_map, linspace_length; lia).
  rewrite !map_nth.
  assert (Htf : 0 < INR step) by (apply lt_0_INR; lia).
  unfold linspace. destruct step as [|[|n]]; try lia.
  set (N := S (S n)) in *.
  set (f := fun j : nat => 0 + INR j * ((INR N - 0) / INR (N - 1))).
  rewrite !(nth_indep _ 0 (f 0%nat)) by (rewrite length_map, length_seq; lia).
  rewrite !map_nth, !seq_nth by lia. rewrite !Nat.add_0_l. unfold f.
  assert (HN : 0 < INR (N - 1)) by (apply lt_0_INR; unfold N; lia).
  assert (Hk0 : 0 <= INR k) by apply pos_INR.
  assert (Hk1 : INR (S k) <= INR (N - 1)) by (apply le_INR; lia).
  rewrite S_INR in *.
  set (d := INR (N - 1)) in *. set (x := INR k) in *. set (b := INR N) in *.
  assert (Hd : 0 < b / d) by (apply Rmult_lt_0_compat; [lra | now apply Rinv_0_lt_compat]).
  assert (E1 : 0 + x * ((b - 0) / d) = x * (b / d)) by (field; lra).
  assert (E2 : 0 + (x + 1) * ((b - 0) / d) = (x + 1) * (b / d)) by (field; lra).
  rewrite E1, E2.
  assert (A1 : 0 <= x * (b / d)) by (apply Rmult_le_pos; lra).
  assert (A2 : x * (b / d) <= (x + 1) * (b / d)) by (apply Rmult_le_compat_r; lra).
  assert (A3 : (x + 1) * (b / d) <= b).
  { replace ((x + 1) * (b / d)) with (b * ((x + 1) / d)) by (field; lra).
    assert ((x + 1) / d <= 1).
    { apply Rmult_le_reg_r with d; [exact HN|].
      replace ((x + 1) / d * d) with (x + 1) by (field; lra). lra. }
    nra. }
  apply cubic_value_monotone; assumption.
Qed.

Lemma cubic_trajectory_monotone_witness :
  0 <= 10 /\ (2 < 5)%nat /\
  exists t, cubic_polynomial_trajectory 0 10 5 = Ok t /\ nth 1 t 0 <= nth 2 t 0.
Proof.
  assert (Hp : 0 <= 10) by lra. assert (Hk : (2 < 5)%nat) by lia.
  split; [exact Hp|]. split; [exact Hk|].
  exact (cubic_trajectory_monotone 0 10 5 1 Hp Hk).
Defined.

(** X27: with [step = 1] the trajectory is the start configuration alone: the
    stop configuration is not reached. *)
Theorem joint_space_trajectory_single_step (start_pose stop_pose : list R) :
  (length start_pose <= length stop_pose)%nat ->
  joint_space_trajectory start_pose stop_pose 1 = Ok [start_pose].
Proof.
  intros Hlen.
  destruct (zeros_shape 1 (length start_pose)) as [Hz1 Hz2].
  destruct (joint_space_trajectory_loop_spec start_pose stop_pose 1 ltac:(lia) Hlen
              (length start_pose) 0 (zeros 1 (length start_pose)) ltac:(lia) Hz1 Hz2)
    as (traj & Hrun & Hrows & Hw & Hent).
  unfold joint_space_trajectory. rewrite Hrun. f_equal.
  destruct traj as [|row [|row' traj]]; simpl in Hrows; try lia.
  f_equal. inversion Hw as [|? ? Hrow _]; subst.
  apply nth_ext with (d := 0) (d' := 0); [exact Hrow|].
  intros i Hi. rewrite Hrow in Hi.
  specialize (Hent 0%nat i ltac:(lia)). cbn [nth] in Hent. rewrite Hent.
  destruct (Nat.ltb_spec i (0 + length start_pose)); [|lia]. cbn [Nat.leb andb].
  unfold trajectory_column. cbn [linspace map nth].
  assert (H1 : INR 1 <> 0) by (apply not_0_INR; lia).
  destruct (cubic_boundary (nth i start_pose 0) (nth i stop_pose 0) (INR 1) H1) as (H0 & _).
  exact H0.
Qed.

Lemma joint_space_trajectory_single_step_witness :
  (length [1; 2] <= length [3; 4])%nat /\
  joint_space_trajectory [1; 2] [3; 4] 1 = Ok [[1; 2]].
Proof.
  assert (H : (length [1; 2] <= length [3; 4])%nat) by (simpl; lia).
  split; [exact H|].
  exact (joint_space_trajectory_single_step [1; 2] [3; 4] H).
Defined.

(** ** Sequences *)

Lemma emit_frameChanged_keeps (frameForTime : Z -> Z -> Z -> Z -> Z) (World : Type)
    (frames : list R -> World -> World) (emitted : list Z) :
  forall (s s' : Sequence) (w w' : World),
    emit_frameChanged World frames emitted (s, w) = Ok (s', w') ->
    timeline s' = timeline s /\ trajectory s' = trajectory s /\ step s' = step s.
Proof.
  induction emitted as [|index rest IH]; intros s s' w w' H; simpl in H.
  - injection H as <- <-. repeat split; reflexivity.
  - unfold animate in H.
    destruct (array_row (trajectory s) index) as [row|e]; [|discriminate].
    apply IH in H. exact H.
Qed.

(** X28: [stop] is idempotent. Whenever it returns, the sequence is not
    running, the time line is at or past its end, and a second [stop]
    emits no frame and changes neither the sequence nor the scene. *)
Theorem stop_idempotent (frameForTime : Z -> Z -> Z -> Z -> Z) (World : Type)
    (frames : list R -> World -> World) (sw sw' : Sequence * World) :
  Sequence_stop frameForTime World frames sw = Ok sw' ->
  Sequence_stop frameForTime World frames sw' = Ok sw' /\
  isRunning (fst sw') = false /\
  (duration (timeline (fst sw)) <= currentTime (timeline (fst sw')))%Z.
Proof.
  destruct sw as [s w]. unfold Sequence_stop at 1. cbn [fst snd].
  destruct (currentTime (timeline s) <? duration (timeline s))%Z eqn:Elt.
  - unfold QTimeLine_setCurrentTime. rewrite Z.leb_refl.
    match goal with
    | |- context [emit_frameChanged World frames ?em (with_timeline ?tl s, w)] =>
        set (emitted := em); set (tl' := tl)
    end.
    destruct (emit_frameChanged World frames emitted (with_timeline tl' s, w))
      as [[s1 w1]|e] eqn:Eem; [|discriminate].
    intros H. injection H as <-.
    destruct (emit_frameChanged_keeps frameForTime World frames emitted _ _ _ _ Eem)
      as (Htl & _ & _).
    cbn [timeline with_timeline] in Htl.
    split; [|split].
    + unfold Sequence_stop. cbn [timeline with_timeline QTimeLine_stop currentTime duration].
      rewrite Htl. unfold tl'. cbn [currentTime duration]. rewrite Z.ltb_irrefl.
      cbn [emit_frameChanged timeline with_timeline]. reflexivity.
    + reflexivity.
    + cbn [fst timeline with_timeline QTimeLine_stop currentTime]. rewrite Htl.
      unfold tl'. cbn [currentTime]. lia.
  - intros H. cbn [emit_frameChanged] in H. injection H as <-.
    split; [|split].
    + unfold Sequence_stop. cbn [timeline with_timeline QTimeLine_stop currentTime duration].
      rewrite Elt. cbn [emit_frameChanged timeline with_timeline]. reflexivity.
    + reflexivity.
    + cbn [fst timeline with_timeline QTimeLine_stop currentTime].
      apply Z.ltb_ge in Elt. exact Elt.
Qed.

Lemma stop_idempotent_witness :
  Sequence_stop linear_frameForTime (list R) (fun row _ => row) (sequence_example, [0])
  = Ok (mkSequence (mkQTimeLine 100 0 1 100 NotRunning) [[0]; [10]] 2 1, [10]) /\
  Sequence_stop linear_frameForTime (list R) (fun row _ => row)
    (mkSequence (mkQTimeLine 100 0 1 100 NotRunning) [[0]; [10]] 2 1, [10])
  = Ok (mkSequence (mkQTimeLine 100 0 1 100 NotRunning) [[0]; [10]] 2 1, [10]) /\
  isRunning (mkSequence (mkQTimeLine 100 0 1 100 NotRunning) [[0]; [10]] 2 1) = false /\
  (duration (timeline sequence_example) <= 100)%Z.
Proof.
  assert (H : Sequence_stop linear_frameForTime (list R) (fun row _ => row)
                (sequence_example, [0])
              = Ok (mkSequence (mkQTimeLine 100 0 1 100 NotRunning) [[0]; [10]] 2 1, [10]))
    by reflexivity.
  split; [exact H|].
  exact (stop_idempotent linear_frameForTime (list R) (fun row _ => row)
           (sequence_example, [0]) _ H).
Defined.

(** ** Numeric inverse kinematics, continued *)

Lemma dot_self_nonneg (v : list R) : 0 <= dot v v.
Proof. induction v as [|x v IH]; simpl; [lra | nra]. Qed.

Lemma pose_error_nonneg (target_pose current_pose : list R) (H : Matrix44) :
  0 <= pose_error target_pose current_pose H.
Proof. unfold pose_error. apply dot_self_nonneg. Qed.

Lemma same_locked_refl (mask : list bool) (c : list R) : same_locked mask c c.
Proof. split; [reflexivity | intros; reflexivity]. Qed.

Lemma same_locked_trans (mask : list bool) (a b c : list R) :
  same_locked mask a b -> same_locked mask b c -> same_locked mask a c.
Proof.
  intros [L1 N1] [L2 N2]. split; [congruence|].
  intros i Hi. rewrite (N2 i Hi). apply N1. exact Hi.
Qed.

Lemma opt_keeps_locked
    (Robot : Type) (ri_fkine : Robot -> list R -> Robot * result Matrix44)
    (ri_tool_link : Robot -> Matrix44) (target_pose current_pose : list R)
    (mask : list bool) (tolerance : R) (q : list R) (st : OptState Robot) :
  same_locked mask (conf Robot st)
    (conf Robot (snd (opt Robot ri_fkine ri_tool_link target_pose current_pose mask
                          tolerance q st))).
Proof.
  unfold opt.
  destruct (mask_assign (conf Robot st) mask q) as [c|e] eqn:Ea.
  - apply mask_assign_keeps_locked in Ea.
    destruct (ri_fkine (ri Robot st) c) as [r [m|e]]; [destruct (Rlt_dec _ _)|];
      exact Ea.
  - apply same_locked_refl.
Qed.

Lemma opt_value
    (Robot : Type) (ri_fkine : Robot -> list R -> Robot * result Matrix44)
    (ri_tool_link : Robot -> Matrix44) (target_pose current_pose : list R)
    (mask : list bool) (tolerance : R) (q : list R) (st st' : OptState Robot) (err : R) :
  opt Robot ri_fkine ri_tool_link target_pose current_pose mask tolerance q st
  = (Ok err, st') -> tolerance <= err.
Proof.
  unfold opt.
  destruct (mask_assign (conf Robot st) mask q) as [c|e]; [|discriminate].
  destruct (ri_fkine (ri Robot st) c) as [r [m|e]]; [|discriminate].
  destruct (Rlt_dec _ _) as [|Hge]; [discriminate|].
  intros H. injection H as <- _. lra.
Qed.

Lemma opt_stop
    (Robot : Type) (ri_fkine : Robot -> list R -> Robot * result Matrix44)
    (ri_tool_link : Robot -> Matrix44) (target_pose current_pose : list R)
    (mask : list bool) (tolerance : R) (q : list R) (st st' : OptState Robot) :
  (forall r c, snd (ri_fkine r c) <> Raise StopOptimizingException) ->
  opt Robot ri_fkine ri_tool_link target_pose current_pose mask tolerance q st
  = (Raise StopOptimizingException, st') ->
  exists c m,
    mask_assign (conf Robot st) mask q = Ok c /\
    ri_fkine (ri Robot st) c = (ri Robot st', Ok m) /\
    pose_error target_pose current_pose (mat_mul m (ri_tool_link (ri Robot st')))
    < tolerance.
Proof.
  intros Hfk. unfold opt.
  destruct (mask_assign (conf Robot st) mask q) as [c|e] eqn:Ea.
  - destruct (ri_fkine (ri Robot st) c) as [r [m|e]] eqn:Ef.
    + destruct (Rlt_dec _ _) as [Hlt|]; [|discriminate].
      intros H. injection H as <-. exists c, m. cbn [ri]. repeat split; assumption.
    + intros H. injection H as -> _. exfalso. apply (Hfk (ri Robot st) c).
      rewrite Ef. reflexivity.
  - intros H. injection H as -> _.
    unfold mask_assign in Ea.
    destruct (negb _); [discriminate|]. destruct (_ =? _)%nat; [discriminate|].
    destruct q as [|u [|u' q']]; discriminate.
Qed.

Lemma run_search_keeps_locked
    (Robot : Type) (ri_fkine : Robot -> list R -> Robot * result Matrix44)
    (ri_tool_link : Robot -> Matrix44) (target_pose current_pose : list R)
    (mask : list bool) (tolerance : R) (s : Search) :
  forall st : OptState Robot,
    same_locked mask (conf Robot st)
      (conf Robot (snd (run_search Robot ri_fkine ri_tool_link target_pose current_pose
                                   mask tolerance s st))).
Proof.
  induction s as [x | q k IH | x f k IH]; intros st; simpl.
  - apply same_locked_refl.
  - pose proof (opt_keeps_locked Robot ri_fkine ri_tool_link target_pose current_pose mask
                  tolerance q st) as Ho.
    destruct (opt Robot ri_fkine ri_tool_link target_pose current_pose mask tolerance q st)
      as [[err|e] st1]; cbn [snd] in Ho |- *; [|exact Ho].
    eapply same_locked_trans; [exact Ho | apply IH].
  - apply IH.
Qed.

Lemma run_search_finishes
    (Robot : Type) (ri_fkine : Robot -> list R -> Robot * result Matrix44)
    (ri_tool_link : Robot -> Matrix44) (target_pose current_pose : list R)
    (mask : list bool) (tolerance : R) (s : Search) :
  forall (st st' : OptState Robot) (x : list R),
    run_search Robot ri_fkine ri_tool_link target_pose current_pose mask tolerance s st
    = (Ok x, st') -> finishes s x.
Proof.
  induction s as [y | q k IH | y f k IH]; intros st st' x H; simpl in H.
  - injection H as <- _. constructor.
  - destruct (opt Robot ri_fkine ri_tool_link target_pose current_pose mask tolerance q st)
      as [[err|e] st1]; [|discriminate].
    econstructor. eapply IH. exact H.
  - econstructor. eapply IH. exact H.
Qed.

Lemma mask_select_errors {A : Type} (a : list A) : forall (mask : list bool) (e : exn),
  mask_select a mask = Raise e -> e = IndexError.
Proof.
  induction a as [|v a IH]; intros [|m mask] e H; simpl in H; try discriminate;
    try (injection H as <-; reflexivity).
  destruct (mask_select a mask) as [r|e'] eqn:E; [discriminate|].
  injection H as <-. eapply IH. exact E.
Qed.

(** X29: what [numeric_inverse_kinematics] returns. Either the search was
    stopped by the tolerance and the result is the whole configuration, of
    the length of the positioner's configuration and with every locked
    joint at the offset it had; or the search ran to its end and the result
    is its [r.x], for the bounds and the start point of the free joints
    alone. *)
Theorem numeric_inverse_kinematics_returns
    (Robot : Type) (ri_configuration : Robot -> list R) (ri_locked : Robot -> list bool)
    (ri_fkine : Robot -> list R -> Robot * result Matrix44)
    (ri_tool_link : Robot -> Matrix44) (dual_annealing : list (R * R) -> list R -> Search)
    (r r' : Robot) (target_pose current_pose : list R)
    (bounds : list (R * R)) (tol : R) (x : list R) :
  numeric_inverse_kinematics Robot ri_configuration ri_locked ri_fkine ri_tool_link
                             dual_annealing r target_pose current_pose bounds tol
  = (Ok x, r') ->
  same_locked (map negb (ri_locked r)) (ri_configuration r) x \/
  exists q0 b0,
    mask_select (ri_configuration r) (map negb (ri_locked r)) = Ok q0 /\
    mask_select bounds (map negb (ri_locked r)) = Ok b0 /\
    finishes (dual_annealing b0 q0) x.
Proof.
  unfold numeric_inverse_kinematics.
  destruct (mask_select (ri_configuration r) _) as [q0|e] eqn:Eq0; [|discriminate].
  destruct (mask_select bounds _) as [b0|e] eqn:Eb0; [|discriminate].
  set (mask := map negb (ri_locked r)) in *.
  set (st0 := mkOptState Robot r (ri_configuration r) None).
  pose proof (opt_keeps_locked Robot ri_fkine ri_tool_link target_pose current_pose mask
                (tol * tol) q0 st0) as H1.
  destruct (opt Robot ri_fkine ri_tool_link target_pose current_pose mask (tol * tol) q0 st0)
    as [[best|e] st1] eqn:Eopt; [|discriminate].
  apply opt_value in Eopt. cbn [snd] in H1.
  destruct (Rlt_dec best (tol * tol)) as [Hlt|_]; [lra|].
  set (st1' := mkOptState Robot (ri Robot st1) (conf Robot st1) (Some best)).
  pose proof (run_search_keeps_locked Robot ri_fkine ri_tool_link target_pose current_pose
                mask (tol * tol) (dual_annealing b0 q0) st1') as H2.
  destruct (run_search Robot ri_fkine ri_tool_link target_pose current_pose mask (tol * tol)
              (dual_annealing b0 q0) st1') as [[y|e] st2] eqn:Erun.
  - intros H. injection H as <- _. right. exists q0, b0.
    split; [reflexivity|]. split; [reflexivity|].
    eapply run_search_finishes. exact Erun.
  - destruct e; try discriminate.
    intros H. injection H as <- _. left. cbn [snd conf] in H2.
    eapply same_locked_trans; [exact H1 | exact H2].
Qed.

(** X30: when forward kinematics does not raise it itself,
    StopOptimizingException leaves [numeric_inverse_kinematics] only from
    the first evaluation, made outside the [try] block: the tolerance is
    not zero and the pose error at the configuration the positioner was in
    is already below [tol * tol]; once the search has started the
    exception is always caught. *)
Theorem numeric_inverse_kinematics_stop_escapes
    (Robot : Type) (ri_configuration : Robot -> list R) (ri_locked : Robot -> list bool)
    (ri_fkine : Robot -> list R -> Robot * result Matrix44)
    (ri_tool_link : Robot -> Matrix44) (dual_annealing : list (R * R) -> list R -> Search)
    (r r' : Robot) (target_pose current_pose : list R)
    (bounds : list (R * R)) (tol : R) :
  (forall p c, snd (ri_fkine p c) <> Raise StopOptimizingException) ->
  numeric_inverse_kinematics Robot ri_configuration ri_locked ri_fkine ri_tool_link
                             dual_annealing r target_pose current_pose bounds tol
  = (Raise StopOptimizingException, r') ->
  tol <> 0 /\
  exists m,
    ri_fkine r (ri_configuration r) = (r', Ok m) /\
    pose_error target_pose current_pose (mat_mul m (ri_tool_link r')) < tol * tol.
Proof.
  intros Hfk. unfold numeric_inverse_kinematics.
  destruct (mask_select (ri_configuration r) _) as [q0|e] eqn:Eq0.
  2:{ intros H. injection H as -> _. apply mask_select_errors in Eq0. discriminate. }
  destruct (mask_select bounds _) as [b0|e] eqn:Eb0.
  2:{ intros H. injection H as -> _. apply mask_select_errors in Eb0. discriminate. }
  set (mask := map negb (ri_locked r)) in *.
  set (st0 := mkOptState Robot r (ri_configuration r) None).
  destruct (opt Robot ri_fkine ri_tool_link target_pose current_pose mask (tol * tol) q0 st0)
    as [[best|e] st1] eqn:Eopt.
  - destruct (Rlt_dec best (tol * tol)); [discriminate|].
    destruct (run_search _ _ _ _ _ _ _ _ _) as [[y|e] st2]; [discriminate|].
    destruct e; discriminate.
  - intros H. injection H as -> <-.
    destruct (opt_stop Robot ri_fkine ri_tool_link target_pose current_pose mask (tol * tol)
                q0 st0 st1 Hfk Eopt) as (c & m & Ha & Hf & Herr).
    unfold st0 in Ha, Hf. cbn [conf ri] in Ha, Hf.
    rewrite (mask_select_assign _ _ _ Eq0) in Ha.
    injection Ha as <-.
    pose proof (pose_error_nonneg target_pose current_pose
                  (mat_mul m (ri_tool_link (ri Robot st1)))) as Hnn.
    split; [intros ->; lra|]. exists m. split; assumption.
Qed.

Lemma fkine_loop_errors (q : list R) (il sp : bool) (idx : list nat) :
  forall (ls ls' : list Link) (qs : QuaternionVectorPair) (e : exn),
    fkine_loop idx q il sp ls qs = (ls', Raise e) -> e = IndexError.
Proof.
  induction idx as [|i rest IH]; intros ls ls' qs e H; simpl in H; [discriminate|].
  destruct (nth_error ls i) as [l|]; [|injection H as _ <-; reflexivity].
  destruct (nth_error q i) as [qi|]; [|injection H as _ <-; reflexivity].
  eapply IH. exact H.
Qed.

Lemma Positioner_fkine_errors (p : Positioner) (c : list R) :
  snd (Positioner_fkine p c) <> Raise StopOptimizingException.
Proof.
  unfold Positioner_fkine, fkine.
  destruct (fkine_loop _ c false true (links (manipulator p)) pair_identity)
    as [ls [qs|e]] eqn:E; cbn [snd]; [discriminate|].
  apply fkine_loop_errors in E. rewrite E. discriminate.
Qed.

Lemma example_solve_finish :
  example_solve (search_once 5) [5; 3; 0; 0; 0; 1] = (Ok [5], example_positioner 5 2).
Proof.
  start_example_solve. do 2 not_below_tolerance.
  cbn [run_search ri conf]. rewrite example_opt. not_below_tolerance.
  reflexivity.
Qed.

Lemma example_solve_stop :
  example_solve (search_once 5) [0; 2; 0; 0; 0; 1]
  = (Raise StopOptimizingException, example_positioner 0 2).
Proof.
  start_example_solve.
  destruct (Rlt_dec _ _) as [_|E]; [reflexivity | lra].
Qed.

Lemma numeric_inverse_kinematics_returns_witness :
  example_solve (search_once 5) [5; 3; 0; 0; 0; 1] = (Ok [5], example_positioner 5 2) /\
  (same_locked (map negb (Positioner_locked (example_positioner 0 2)))
               (Positioner_configuration (example_positioner 0 2)) [5] \/
   exists q0 b0,
     mask_select (Positioner_configuration (example_positioner 0 2))
                 (map negb (Positioner_locked (example_positioner 0 2))) = Ok q0 /\
     mask_select example_bounds (map negb (Positioner_locked (example_positioner 0 2)))
     = Ok b0 /\
     finishes (search_once 5 b0 q0) [5]).
Proof.
  split; [exact example_solve_finish|].
  exact (numeric_inverse_kinematics_returns Positioner Positioner_configuration
           Positioner_locked Positioner_fkine tool_link (search_once 5)
           (example_positioner 0 2) (example_positioner 5 2)
           [5; 3; 0; 0; 0; 1] [0; 0; 0; 0; 0; 1] example_bounds (1 / 10) [5]
           example_solve_finish).
Defined.

Lemma numeric_inverse_kinematics_stop_escapes_witness :
  (forall p c, snd (Positioner_fkine p c) <> Raise StopOptimizingException) /\
  example_solve (search_once 5) [0; 2; 0; 0; 0; 1]
  = (Raise StopOptimizingException, example_positioner 0 2) /\
  1 / 10 <> 0 /\
  exists m,
    Positioner_fkine (example_positioner 0 2)
                     (Positioner_configuration (example_positioner 0 2))
    = (example_positioner 0 2, Ok m) /\
    pose_error [0; 2; 0; 0; 0; 1] [0; 0; 0; 0; 0; 1]
               (mat_mul m (tool_link (example_positioner 0 2)))
    < 1 / 10 * (1 / 10).
Proof.
  split; [exact Positioner_fkine_errors|]. split; [exact example_solve_stop|].
  exact (numeric_inverse_kinematics_stop_escapes Positioner Positioner_configuration
           Positioner_locked Positioner_fkine tool_link (search_once 5)
           (example_positioner 0 2) (example_positioner 0 2)
           [0; 2; 0; 0; 0; 1] [0; 0; 0; 0; 0; 1] example_bounds (1 / 10)
           Positioner_fkine_errors example_solve_stop).
Defined.
